(** * Directory-listing caches of [fsspec/dircache.py]

    A shallow embedding of the three listing-cache backends
    ([DisabledListingsCache], [MemoryListingsCache], [FileListingsCache]) and
    of the factory [create_listings_cache], followed by the properties of
    the caches that the design document states.

    Modelling conventions.
    - A method that mutates [self] becomes a function returning the new
      state; a method that can raise returns a [result] next to the state,
      because what was mutated before the [raise] stays mutated.
    - [time.time()] is an extra argument [now] of every method that reads
      the clock.  Clock readings and durations are exact numbers ([Z],
      think of clock ticks); rounding of floating-point seconds is outside
      the model.
    - Python dictionaries are [gmap]s: no method modelled here depends on
      the insertion order of [_cache] or [_times]. *)

From stdpp Require Import gmap strings list fin_maps pretty.

Open Scope Z_scope.

(** ** Python values and exceptions *)

(** The exceptions the module can raise. *)
Inductive exception : Set :=
| KeyError
| TypeError
| ImportError
| OSError
| OverflowError.

Inductive result (A : Type) : Type :=
| Return (a : A)
| Raise (e : exception).
Arguments Return {A} a.
Arguments Raise {A} e.

(** One record of a listing, as in the docstring of [MemoryListingsCache]. *)
Module entry.
Record t : Set := Build { name : string; size : Z; type : string }.
End entry.

(** A listing is what is stored under a path. *)
Definition listing : Set := list entry.t.

(** ** [functools.lru_cache]

    [lru_cache(maxsize)(f)] from the Python standard library, restricted to
    what [MemoryListingsCache] observes of it: the wrapper remembers the
    arguments it was called with, least recently used first.  A call with a
    remembered argument is a hit: [f] is not called and the argument
    becomes the most recent one.  A call with any other argument is a miss:
    [f] is called, then the argument is remembered, the oldest one being
    forgotten first when [maxsize] arguments are held already.  A negative
    [maxsize] counts as [0], and a wrapper of size [0] remembers nothing.
    The results that the wrapper stores are never read by the module and
    are left out. *)
Module lru_cache.

Definition clamp (maxsize : Z) : nat := Z.to_nat (Z.max 0 maxsize).

Definition hit (q : list string) (key : string) : bool :=
  bool_decide (key ∈ q).

(** The remembered arguments after a hit on [key]. *)
Definition promote (q : list string) (key : string) : list string :=
  filter (λ k, k ≠ key) q ++ [key].

(** The remembered arguments after a miss on [key]. *)
Definition remember (maxsize : nat) (q : list string) (key : string)
  : list string :=
  match maxsize with
  | O => q
  | S _ => if (maxsize <=? length q)%nat then tail q ++ [key] else q ++ [key]
  end.

End lru_cache.

(** ** [DisabledListingsCache] *)
Module DisabledListingsCache.

(** The class has no attribute. *)
Definition t : Set := unit.

Definition __init__ : t := tt.
Definition __getitem__ (self : t) (item : string) : result listing * t :=
  (Raise KeyError, self).
Definition __setitem__ (self : t) (key : string) (value : listing) : t := self.
Definition __delitem__ (self : t) (key : string) : result unit * t :=
  (Return tt, self).
Definition __iter__ (self : t) : list string := [].
Definition __len__ (self : t) : nat := 0%nat.
Definition clear (self : t) : t := self.
Definition __contains__ (self : t) (item : string) : bool := false.
(** [__reduce__] returns the class and an empty argument tuple. *)
Definition __reduce__ (self : t) : unit := tt.
Definition reconstruct (self : t) : t := __init__.

End DisabledListingsCache.

(** ** [MemoryListingsCache] *)
Module MemoryListingsCache.

Record t : Type := Build {
  _cache : gmap string listing;
  _times : gmap string Z;
  (** the arguments remembered by the [lru_cache] wrapper [_q] *)
  _q : list string;
  _expiry_time : option Z;
  _max_paths : option Z
}.

(** Truth value of [max_paths]: [None] and [0] are false. *)
Definition truthy (max_paths : option Z) : bool :=
  match max_paths with
  | None => false
  | Some n => negb (n =? 0)
  end.

(** The attributes after [__init__].  The one way in which [__init__]
    fails, the [OverflowError] of [lru_cache(max_paths + 1)] for a size
    above [sys.maxsize], is with the call of the class ([call_Memory]
    below). *)
Definition __init__ (expiry_time max_paths : option Z) : t :=
  {| _cache := ∅; _times := ∅; _q := [];
     _expiry_time := expiry_time; _max_paths := max_paths |}.

(** [maxsize] of the wrapper built by [__init__]: [max_paths + 1]. *)
Definition maxsize (self : t) : nat :=
  match _max_paths self with
  | Some n => lru_cache.clamp (n + 1)
  | None => 0%nat
  end.

(** [self._q(key)], the wrapped function being
    [lambda key: self._cache.pop(key, None)]. *)
Definition call_q (self : t) (key : string) : t :=
  if lru_cache.hit (_q self) key then
    {| _cache := _cache self; _times := _times self;
       _q := lru_cache.promote (_q self) key;
       _expiry_time := _expiry_time self; _max_paths := _max_paths self |}
  else
    {| _cache := delete key (_cache self); _times := _times self;
       _q := lru_cache.remember (maxsize self) (_q self) key;
       _expiry_time := _expiry_time self; _max_paths := _max_paths self |}.

(** The test [self._times.get(item, 0) - time.time() < -self._expiry_time]
    of [__getitem__], false when no expiry time is set. *)
Definition expired (self : t) (now : Z) (item : string) : bool :=
  match _expiry_time self with
  | Some T => default 0 (_times self !! item) - now <? - T
  | None => false
  end.

(** [del self._cache[key]] *)
Definition del_cache (self : t) (key : string) : result unit * t :=
  match _cache self !! key with
  | Some _ =>
      (Return tt,
       {| _cache := delete key (_cache self); _times := _times self;
          _q := _q self;
          _expiry_time := _expiry_time self;
          _max_paths := _max_paths self |})
  | None => (Raise KeyError, self)
  end.

Definition __getitem__ (self : t) (now : Z) (item : string)
  : result listing * t :=
  match (if expired self now item then del_cache self item
         else (Return tt, self)) with
  | (Raise e, s1) => (Raise e, s1)
  | (Return _, s1) =>
      let s2 := if truthy (_max_paths s1) then call_q s1 item else s1 in
      match _cache s2 !! item with
      | Some v => (Return v, s2)
      | None => (Raise KeyError, s2)
      end
  end.

Definition clear (self : t) : t :=
  {| _cache := ∅; _times := _times self; _q := _q self;
     _expiry_time := _expiry_time self; _max_paths := _max_paths self |}.

Definition __len__ (self : t) : nat := size (_cache self).

(** [try: self[item]; return True / except KeyError: return False];
    [KeyError] is all that [__getitem__] raises. *)
Definition __contains__ (self : t) (now : Z) (item : string) : bool * t :=
  match __getitem__ self now item with
  | (Return _, s) => (true, s)
  | (Raise _, s) => (false, s)
  end.

Definition __setitem__ (self : t) (now : Z) (key : string) (value : listing)
  : t :=
  let s1 := if truthy (_max_paths self) then call_q self key else self in
  {| _cache := <[key := value]> (_cache s1);
     _times := match _expiry_time s1 with
               | Some _ => <[key := now]> (_times s1)
               | None => _times s1
               end;
     _q := _q s1;
     _expiry_time := _expiry_time s1; _max_paths := _max_paths s1 |}.

Definition __delitem__ (self : t) (key : string) : result unit * t :=
  del_cache self key.

(** The generator [(k for k in entries if k in self)], run to its end.
    [entries] is [list(self._cache)], the keys of [_cache] in the order of
    the dictionary, which the [gmap] does not record; each key comes with
    the reading of the clock at the time the generator tests it. *)
Fixpoint generate (self : t) (entries : list (Z * string)) : list string * t :=
  match entries with
  | [] => ([], self)
  | (now, k) :: entries =>
      match __contains__ self now k with
      | (found, s1) =>
          match generate s1 entries with
          | (ks, s2) => (if found then k :: ks else ks, s2)
          end
      end
  end.

(** [entries] lists every key of [_cache] once. *)
Definition snapshot (self : t) (entries : list (Z * string)) : Prop :=
  NoDup entries.*2 ∧ ∀ k, k ∈ entries.*2 ↔ is_Some (_cache self !! k).

Definition __iter__ (self : t) (entries : list (Z * string))
  : list string * t :=
  generate self entries.

(** The constructor arguments returned by [__reduce__]. *)
Definition __reduce__ (self : t) : option Z * option Z :=
  (_expiry_time self, _max_paths self).

(** What unpickling does with the result of [__reduce__]. *)
Definition reconstruct (self : t) : t :=
  __init__ (__reduce__ self).1 (__reduce__ self).2.


(** *** Sequences of calls

    A caller's use of the cache: each call is paired with the reading of
    the clock when it is made. *)
Inductive op : Type :=
| Set_ (key : string) (value : listing)
| Get (key : string)
| Contains (key : string)
| Delete (key : string)
| Clear.

Definition step (self : t) (call : Z * op) : t :=
  match call with
  | (now, Set_ key value) => __setitem__ self now key value
  | (now, Get key) => (__getitem__ self now key).2
  | (now, Contains key) => (__contains__ self now key).2
  | (_, Delete key) => (__delitem__ self key).2
  | (_, Clear) => clear self
  end.

Definition run (self : t) (calls : list (Z * op)) : t :=
  foldl step self calls.



(** The wrapper holds each argument once and never more than [maxsize]. *)
Definition tracker_ok (s : t) : Prop :=
  NoDup (_q s) ∧ (length (_q s) ≤ maxsize s)%nat.



(** The calls that insert the pairs of [kvs] in order, all made at [now]. *)
Definition writes (now : Z) (kvs : list (string * listing)) : list (Z * op) :=
  (λ kv, (now, Set_ kv.1 kv.2)) <$> kvs.

(** [n] different paths: "0", "1", ... *)
Definition paths (n : nat) : list string := pretty <$> seq 0 n.

End MemoryListingsCache.

(** ** The durable store

    [diskcache.Cache], the third-party key-value store behind
    [FileListingsCache], by its documented behaviour: a row holds a value
    and the time at which it expires ([None]: never); [get] returns the
    default [None] for a key that is missing or whose row has expired,
    where [cache[key]] and [del cache[key]] raise [KeyError]; [iterkeys]
    lists the keys of all rows, expired or not.  The comment
    [# None, if expired] in [FileListingsCache.__contains__] records the
    behaviour of [get].  Not modelled: lock timeouts (the reason for
    [retry=True]), eviction above the size limit, and the culling by which
    [set] also removes some of the rows that expired before the time of the
    call; a row written with an expiry that is not negative is not one of
    those. *)
Module diskcache.

Record row : Type := Row { value : listing; expire_time : option Z }.

Definition valid (now : Z) (r : row) : bool :=
  match expire_time r with
  | None => true
  | Some t => now <? t
  end.

(** [cache.get(key)]; Python's [None] is [None]. *)
Definition get (c : gmap string row) (now : Z) (key : string)
  : option listing :=
  match c !! key with
  | Some r => if valid now r then Some (value r) else None
  | None => None
  end.

(** [cache.set(key, value, expire)] *)
Definition set (c : gmap string row) (now : Z) (key : string)
    (v : listing) (expire : option Z) : gmap string row :=
  <[key := Row v ((λ e, now + e) <$> expire)]> c.

(** [del cache[key]] *)
Definition __delitem__ (c : gmap string row) (now : Z) (key : string)
  : result unit * gmap string row :=
  match c !! key with
  | Some r => if valid now r then (Return tt, delete key c)
              else (Raise KeyError, c)
  | None => (Raise KeyError, c)
  end.

Definition iterkeys (c : gmap string row) : list string :=
  (map_to_list c).*1.

Definition clear (c : gmap string row) : gmap string row := ∅.

End diskcache.

(** A [pathlib.Path], as the list of its components. *)
Definition Path : Type := list string.

(** The stores on disk, by directory.  A directory that holds no store yet
    reads as an empty one, which is what opening it creates. *)
Definition disk_lookup (disk : gmap (list string) (gmap string diskcache.row))
    (directory : Path) : gmap string diskcache.row :=
  default ∅ (disk !! directory).

(** ** [FileListingsCache] *)
Module FileListingsCache.

(** What the constructor meets outside the program: whether
    [platformdirs] and [diskcache] can be imported, the directory that
    [platformdirs.user_cache_dir(appname="fsspec")] names, and the
    directories that [mkdir] can create (or finds there). *)
Record env : Type := Env {
  importable : bool;
  user_cache_dir : Path;
  mkdir_ok : Path → bool
}.

(** The attributes; [_cache] is the store that the disk holds at
    [_directory]. *)
Record t : Type := Build {
  _expiry_time : option Z;
  _directory : Path
}.

(** [str(expiry_time)] *)
Definition str (expiry_time : option Z) : string :=
  match expiry_time with
  | None => "None"
  | Some n => pretty n
  end.

Definition __init__ (e : env) (expiry_time : option Z)
    (directory : option Path) : result t :=
  if negb (importable e) then Raise ImportError
  else
    let directory :=
      match directory with
      | None => user_cache_dir e
      | Some d => d
      end in
    let directory := directory ++ ["dircache"; str expiry_time] in
    if mkdir_ok e directory
    then Return {| _expiry_time := expiry_time; _directory := directory |}
    else Raise OSError.

Section methods.
Variable self : t.
Variable disk : gmap (list string) (gmap string diskcache.row).
Variable now : Z.

Definition _cache : gmap string diskcache.row :=
  disk_lookup disk (_directory self).

(** [return self._cache.get(key=item, read=True, retry=True)] *)
Definition __getitem__ (item : string) : result (option listing) :=
  Return (diskcache.get _cache now item).

Definition clear : gmap (list string) (gmap string diskcache.row) :=
  <[_directory self := diskcache.clear _cache]> disk.

Definition __len__ : nat := length (diskcache.iterkeys _cache).

(** [if value: return True]: [None] and the empty listing are false. *)
Definition __contains__ (item : string) : bool :=
  match diskcache.get _cache now item with
  | Some (_ :: _) => true
  | Some [] | None => false
  end.

Definition __setitem__ (key : string) (value : listing)
  : gmap (list string) (gmap string diskcache.row) :=
  <[_directory self :=
      diskcache.set _cache now key value (_expiry_time self)]> disk.

Definition __delitem__ (key : string)
  : result unit * gmap (list string) (gmap string diskcache.row) :=
  match diskcache.__delitem__ _cache now key with
  | (r, c) => (r, <[_directory self := c]> disk)
  end.

Definition __iter__ : list string :=
  filter (λ k, __contains__ k = true) (diskcache.iterkeys _cache).

(** The constructor arguments returned by [__reduce__]. *)
Definition __reduce__ : option Z * Path :=
  (_expiry_time self, _directory self).

End methods.

(** What unpickling does with the result of [__reduce__]. *)
Definition reconstruct (e : env) (self : t) : result t :=
  __init__ e (__reduce__ self).1 (Some (__reduce__ self).2).

End FileListingsCache.

(** ** [CacheType] and [create_listings_cache] *)

Inductive CacheType : Set := DISABLED | MEMORY | FILE.

(** The value passed as [cache_type]: a member of [CacheType], or any
    other hashable object, given by its [repr]. *)
Inductive cache_type_arg : Set :=
| Member (c : CacheType)
| NotMember (repr : string).

(** The values that keyword arguments take. *)
Inductive kwvalue : Type :=
| KwNone
| KwInt (n : Z)
| KwPath (p : Path).

(** An instance of one of the three classes. *)
Inductive instance : Type :=
| Disabled (c : DisabledListingsCache.t)
| Memory (c : MemoryListingsCache.t)
| File (c : FileListingsCache.t).

(** The member of [CacheType] whose value is the class of an instance. *)
Definition class_of (i : instance) : CacheType :=
  match i with
  | Disabled _ => DISABLED
  | Memory _ => MEMORY
  | File _ => FILE
  end.

(** [sys.maxsize], the largest size that [lru_cache] takes (64 bits). *)
Definition sys_maxsize : Z := 2 ^ 63 - 1.

(** The calls [cls(expiry_time, **kwargs)]: a keyword that the
    constructor does not have is a [TypeError], and so is a missing
    argument without default ([directory] of [FileListingsCache]).  The
    errors of the constructor's body follow in its order. *)
Definition call_Disabled (expiry_time : option Z)
    (kwargs : gmap string kwvalue) : result instance :=
  Return (Disabled DisabledListingsCache.__init__).

Definition call_Memory (expiry_time : option Z)
    (kwargs : gmap string kwvalue) : result instance :=
  if bool_decide (dom kwargs ⊆ ({["max_paths"]} : gset string)) then
    match kwargs !! "max_paths" with
    | None | Some KwNone =>
        Return (Memory (MemoryListingsCache.__init__ expiry_time None))
    | Some (KwInt n) =>
        if n + 1 <=? sys_maxsize
        then Return (Memory (MemoryListingsCache.__init__ expiry_time (Some n)))
        else Raise OverflowError  (* [lru_cache(max_paths + 1)] *)
    | Some (KwPath _) => Raise TypeError  (* [max_paths + 1] *)
    end
  else Raise TypeError.

Definition call_File (e : FileListingsCache.env) (expiry_time : option Z)
    (kwargs : gmap string kwvalue) : result instance :=
  if bool_decide (dom kwargs ⊆ ({["directory"]} : gset string)) then
    match kwargs !! "directory" with
    | None => Raise TypeError
    | Some KwNone | Some (KwInt 0) =>
        match FileListingsCache.__init__ e expiry_time None with
        | Return c => Return (File c)
        | Raise x => Raise x
        end
    | Some (KwInt _) =>
        if FileListingsCache.importable e
        then Raise TypeError  (* [Path(directory)] *)
        else Raise ImportError
    | Some (KwPath d) =>
        match FileListingsCache.__init__ e expiry_time (Some d) with
        | Return c => Return (File c)
        | Raise x => Raise x
        end
    end
  else Raise TypeError.

(** The dictionary [cache_map]. *)
Definition cache_map (e : FileListingsCache.env) (cache_type : cache_type_arg)
  : option (option Z → gmap string kwvalue → result instance) :=
  match cache_type with
  | Member DISABLED => Some call_Disabled
  | Member MEMORY => Some call_Memory
  | Member FILE => Some (call_File e)
  | NotMember _ => None
  end.

Definition create_listings_cache (e : FileListingsCache.env)
    (cache_type : cache_type_arg) (expiry_time : option Z)
    (kwargs : gmap string kwvalue) : result instance :=
  match cache_map e cache_type with
  | Some cls => cls expiry_time kwargs
  | None => Raise KeyError
  end.

(** * Properties *)

(** ** The recency tracker *)
Section lru_facts.
Import lru_cache.

Lemma hit_true q key : hit q key = true ↔ key ∈ q.
Proof. unfold hit. apply bool_decide_eq_true. Qed.

Lemma hit_false q key : hit q key = false ↔ key ∉ q.
Proof. unfold hit. apply bool_decide_eq_false. Qed.

Lemma elem_of_promote q key k : k ∈ promote q key ↔ k ∈ q ∨ k = key.
Proof.
  unfold promote. rewrite elem_of_app, list_elem_of_filter, list_elem_of_singleton.
  split.
  - intros [[_ Hk] | Hk]; [by left | by right].
  - intros [Hk | Hk]; [|by right].
    destruct (decide (k = key)); [by right | by left].
Qed.

Lemma NoDup_promote q key : NoDup q → NoDup (promote q key).
Proof.
  intros Hq. unfold promote. apply NoDup_app. split; [by apply NoDup_filter|].
  split; [|apply NoDup_singleton].
  intros x [Hx _]%list_elem_of_filter ->%list_elem_of_singleton. done.
Qed.

Lemma length_promote q key :
  key ∈ q → (length (promote q key) ≤ length q)%nat.
Proof.
  intros Hin. unfold promote. rewrite length_app. simpl.
  pose proof (length_filter_lt (λ k, k ≠ key) q key Hin) as Hlt.
  cut (length (filter (λ k, k ≠ key) q) < length q)%nat; [lia|].
  apply Hlt. intros Hne. by apply Hne.
Qed.

Lemma remember_full m old rest key :
  length (old :: rest) = S m →
  remember (S m) (old :: rest) key = rest ++ [key].
Proof.
  intros Hlen. unfold remember.
  destruct (Nat.leb_spec (S m) (length (old :: rest))); [done | lia].
Qed.

Lemma remember_room m q key :
  (length q < m)%nat → remember m q key = q ++ [key].
Proof.
  intros Hlen. unfold remember. destruct m as [|m]; [lia|].
  destruct (Nat.leb_spec (S m) (length q)); [lia | done].
Qed.

Lemma length_remember m q key :
  (length q ≤ m)%nat → (length (remember m q key) ≤ m)%nat.
Proof.
  intros Hlen. unfold remember. destruct m as [|m]; [done|].
  destruct (Nat.leb_spec (S m) (length q)).
  - destruct q as [|x q]; simpl in *; [lia|]. rewrite length_app. simpl. lia.
  - rewrite length_app. simpl. lia.
Qed.

Lemma elem_of_remember m q key k :
  k ∈ remember m q key → k ∈ q ∨ k = key.
Proof.
  unfold remember. destruct m as [|m]; [by left|].
  destruct (Nat.leb_spec (S m) (length q)).
  - intros [Hk | Hk%list_elem_of_singleton]%elem_of_app; [left | by right].
    destruct q; [done | apply elem_of_cons; by right].
  - intros [Hk | Hk%list_elem_of_singleton]%elem_of_app; [by left | by right].
Qed.

Lemma elem_of_remember_key m q key :
  (0 < m)%nat → key ∈ remember m q key.
Proof.
  intros Hm. unfold remember. destruct m as [|m]; [lia|].
  destruct (Nat.leb_spec (S m) (length q));
    apply elem_of_app; right; by apply list_elem_of_singleton.
Qed.

Lemma NoDup_remember m q key :
  key ∉ q → NoDup q → NoDup (remember m q key).
Proof.
  intros Hk Hq. unfold remember. destruct m as [|m]; [done|].
  assert (NoDup (q ++ [key])) as Hall.
  { apply NoDup_app. split; [done|]. split; [|apply NoDup_singleton].
    intros x Hx ->%list_elem_of_singleton. done. }
  destruct (Nat.leb_spec (S m) (length q)); [|done].
  destruct q as [|x q]; [done|]. simpl in *.
  by apply NoDup_cons in Hall as [_ ?].
Qed.

End lru_facts.

(** ** [MemoryListingsCache] *)
Section memory.
Import MemoryListingsCache.

(** Unfolds one call and splits on every test it makes. *)
Ltac cases_of_call :=
  unfold __contains__, __getitem__, __setitem__, __delitem__, del_cache,
    call_q, expired;
  repeat match goal with
    | |- context [match ?x with _ => _ end] =>
        lazymatch x with
        | _ <? _ => destruct x eqn:?
        | _ =? _ => destruct x eqn:?
        | lru_cache.hit _ _ => destruct x eqn:?
        | truthy _ => destruct x eqn:?
        | _expiry_time _ => destruct x eqn:?
        | @lookup _ _ _ _ _ _ => destruct x eqn:?
        end; simpl in *
    end.

Lemma call_q_config s key :
  _times (call_q s key) = _times s ∧
  _expiry_time (call_q s key) = _expiry_time s ∧
  _max_paths (call_q s key) = _max_paths s ∧
  maxsize (call_q s key) = maxsize s.
Proof. unfold call_q, maxsize. by destruct (lru_cache.hit _ _). Qed.

Lemma call_q_other s key k :
  k ≠ key → _cache (call_q s key) !! k = _cache s !! k.
Proof.
  intros Hne. unfold call_q. destruct (lru_cache.hit _ _); simpl; [done|].
  by apply lookup_delete_ne.
Qed.

Lemma call_q_hit s key :
  key ∈ _q s →
  _cache (call_q s key) = _cache s ∧
  _q (call_q s key) = lru_cache.promote (_q s) key.
Proof. intros Hin%hit_true. unfold call_q. by rewrite Hin. Qed.

Lemma call_q_miss s key :
  key ∉ _q s →
  _cache (call_q s key) = delete key (_cache s) ∧
  _q (call_q s key) = lru_cache.remember (maxsize s) (_q s) key.
Proof. intros Hin%hit_false. unfold call_q. by rewrite Hin. Qed.

Lemma call_q_tracker_ok s key : tracker_ok s → tracker_ok (call_q s key).
Proof.
  intros [Hnd Hlen]. unfold tracker_ok.
  rewrite (proj2 (proj2 (proj2 (call_q_config s key)))).
  destruct (decide (key ∈ _q s)) as [Hin | Hin].
  - rewrite (proj2 (call_q_hit s key Hin)). split; [by apply NoDup_promote|].
    pose proof (length_promote _ _ Hin). lia.
  - rewrite (proj2 (call_q_miss s key Hin)).
    split; [by apply NoDup_remember | by apply length_remember].
Qed.

(** [__getitem__] raises nothing but [KeyError], never touches the
    timestamps or the configuration, and removes no key but [item]. *)
Lemma getitem_frame s now item :
  let r := __getitem__ s now item in
  (r.1 = Raise KeyError ∨ ∃ v, r.1 = Return v) ∧
  _times r.2 = _times s ∧
  _expiry_time r.2 = _expiry_time s ∧
  _max_paths r.2 = _max_paths s ∧
  (∀ k, k ≠ item → _cache r.2 !! k = _cache s !! k).
Proof.
  cases_of_call; repeat split; eauto; intros k Hk;
    rewrite ?lookup_delete_ne by done; done.
Qed.

(** A read of a key that has expired fails and leaves no value for it. *)
Lemma getitem_expired s now item :
  expired s now item = true →
  (__getitem__ s now item).1 = Raise KeyError ∧
  _cache (__getitem__ s now item).2 !! item = None.
Proof.
  unfold expired at 1. intros Hexp. cases_of_call;
    rewrite ?lookup_delete_eq in *; simplify_eq; done.
Qed.

(** With a tracker, a read of a key that the tracker does not hold fails
    and removes the key from the value store. *)
Lemma getitem_untracked s now item :
  truthy (_max_paths s) = true → item ∉ _q s →
  (__getitem__ s now item).1 = Raise KeyError ∧
  _cache (__getitem__ s now item).2 !! item = None.
Proof.
  intros Ht Hq%hit_false. cases_of_call;
    rewrite ?lookup_delete_eq in *; simplify_eq; done.
Qed.

(** A read that succeeds returns the stored value of a key that has not
    expired and, with a tracker, is held by the tracker. *)
Lemma getitem_Return s now item v s' :
  __getitem__ s now item = (Return v, s') →
  _cache s !! item = Some v ∧ expired s now item = false ∧
  (truthy (_max_paths s) = true → item ∈ _q s).
Proof.
  intros Hget.
  destruct (expired s now item) eqn:Hexp.
  { apply getitem_expired in Hexp as [Hr _]. by rewrite Hget in Hr. }
  split; [|split; [done|]].
  - revert Hget Hexp. cases_of_call; intros;
      rewrite ?lookup_delete_eq in *; simplify_eq; done.
  - intros Ht. destruct (decide (item ∈ _q s)) as [|Hq]; [done|].
    destruct (getitem_untracked s now item Ht Hq) as [Hr _].
    by rewrite Hget in Hr.
Qed.

(** A read of a stored key that has not expired and that the tracker, if
    there is one, holds returns the stored value. *)
Lemma getitem_found s now item v :
  _cache s !! item = Some v → expired s now item = false →
  (truthy (_max_paths s) = true → item ∈ _q s) →
  (__getitem__ s now item).1 = Return v.
Proof.
  intros Hv Hexp Hq. unfold __getitem__. rewrite Hexp.
  destruct (truthy (_max_paths s)); [|by rewrite Hv].
  destruct (call_q_hit s item (Hq eq_refl)) as [Hc _]. by rewrite Hc, Hv.
Qed.

Lemma contains_getitem s now item :
  (__contains__ s now item).1 = true ↔ ∃ v, (__getitem__ s now item).1 = Return v.
Proof.
  unfold __contains__. destruct (__getitem__ s now item) as [[v|e] s']; simpl.
  - split; eauto.
  - split; [done | by intros [? ?]].
Qed.

(** *** [__setitem__] *)

Lemma setitem_config s now key value :
  _expiry_time (__setitem__ s now key value) = _expiry_time s ∧
  _max_paths (__setitem__ s now key value) = _max_paths s.
Proof. by cases_of_call. Qed.

Lemma setitem_key s now key value :
  _cache (__setitem__ s now key value) !! key = Some value ∧
  (is_Some (_expiry_time s) → _times (__setitem__ s now key value) !! key = Some now).
Proof.
  cases_of_call; (split; [by rewrite lookup_insert_eq|]); intros [? ?];
    rewrite ?lookup_insert_eq; congruence.
Qed.

(** A write leaves the values and the timestamps of all other keys alone. *)
Lemma setitem_other s now key value k :
  k ≠ key →
  _cache (__setitem__ s now key value) !! k = _cache s !! k ∧
  _times (__setitem__ s now key value) !! k = _times s !! k.
Proof.
  intros Hne. cases_of_call;
    rewrite ?lookup_insert_ne, ?lookup_delete_ne by done; done.
Qed.

Lemma setitem_q s now key value :
  _q (__setitem__ s now key value) =
  if truthy (_max_paths s) then _q (call_q s key) else _q s.
Proof. unfold __setitem__. by destruct (truthy _). Qed.

Lemma setitem_tracker_ok s now key value :
  tracker_ok s → tracker_ok (__setitem__ s now key value).
Proof.
  intros Hok. pose proof (call_q_tracker_ok s key Hok) as Hok'.
  unfold tracker_ok, maxsize in *.
  rewrite setitem_q, (proj2 (setitem_config s now key value)).
  destruct (truthy _); [|done].
  by rewrite (proj1 (proj2 (proj2 (call_q_config s key)))) in Hok'.
Qed.

(** *** Sequences of calls *)

Lemma step_config s call :
  _expiry_time (step s call) = _expiry_time s ∧
  _max_paths (step s call) = _max_paths s.
Proof.
  destruct call as [now [key value|key|key|key|]]; cbn [step].
  - apply setitem_config.
  - pose proof (getitem_frame s now key) as Hf. cbv zeta in Hf.
    by destruct Hf as (_ & _ & ? & ? & _).
  - pose proof (getitem_frame s now key) as Hf. cbv zeta in Hf.
    destruct Hf as (_ & _ & ? & ? & _). unfold __contains__.
    by destruct (__getitem__ s now key) as [[?|?] ?].
  - by cases_of_call.
  - done.
Qed.

Lemma run_config s calls :
  _expiry_time (run s calls) = _expiry_time s ∧
  _max_paths (run s calls) = _max_paths s.
Proof.
  revert s. induction calls as [|call calls IH]; intros s; [done|].
  simpl. destruct (IH (step s call)) as [-> ->]. apply step_config.
Qed.

Lemma getitem_tracker_ok s now item :
  tracker_ok s → tracker_ok (__getitem__ s now item).2.
Proof.
  intros Hok. unfold __getitem__, del_cache.
  assert (∀ c, tracker_ok
    {| _cache := c; _times := _times s; _q := _q s;
       _expiry_time := _expiry_time s; _max_paths := _max_paths s |}) as Hc
    by (intros c; exact Hok).
  set (s1 := {| _cache := delete item (_cache s) |}) in *.
  assert (tracker_ok s1) as Hok1 by apply Hc.
  pose proof (call_q_tracker_ok s item Hok).
  pose proof (call_q_tracker_ok s1 item Hok1).
  destruct (expired s now item), (_cache s !! item); simpl; try done.
  all: repeat match goal with
         | |- context [truthy ?x] => destruct (truthy x)
         | |- context [match ?x !! ?i with _ => _ end] => destruct (x !! i)
         end; done.
Qed.

Lemma step_tracker_ok s call : tracker_ok s → tracker_ok (step s call).
Proof.
  intros Hok. destruct call as [now [key value|key|key|key|]]; cbn [step].
  - by apply setitem_tracker_ok.
  - by apply getitem_tracker_ok.
  - pose proof (getitem_tracker_ok s now key Hok). unfold __contains__.
    by destruct (__getitem__ s now key) as [[?|?] ?].
  - unfold __delitem__, del_cache. by destruct (_ !! _).
  - done.
Qed.

Lemma run_tracker_ok s calls : tracker_ok s → tracker_ok (run s calls).
Proof.
  revert s. induction calls as [|call calls IH]; intros s Hok; [done|].
  simpl. by apply IH, step_tracker_ok.
Qed.

Lemma init_tracker_ok e mp : tracker_ok (__init__ e mp).
Proof. split; [apply NoDup_nil_2 | simpl; lia]. Qed.

(** *** The capacity bound *)



(** A write of a new key to a full tracker: the oldest key leaves the
    tracker and keeps its value, and the next read of it removes the value. *)
Lemma setitem_overflow s now key value old rest :
  truthy (_max_paths s) = true → tracker_ok s →
  _q s = old :: rest → length (_q s) = maxsize s → key ∉ _q s →
  let s' := __setitem__ s now key value in
  _q s' = rest ++ [key] ∧
  _cache s' !! old = _cache s !! old ∧
  ∀ now', (__getitem__ s' now' old).1 = Raise KeyError ∧
          _cache (__getitem__ s' now' old).2 !! old = None.
Proof.
  intros Ht [Hnd _] Hq Hfull Hkey s'.
  assert (old ≠ key) as Hne.
  { intros ->. apply Hkey. rewrite Hq. by apply elem_of_cons; left. }
  assert (_q s' = rest ++ [key]) as Hq'.
  { unfold s'. rewrite setitem_q, Ht, (proj2 (call_q_miss s key Hkey)).
    rewrite Hq in Hfull |- *. simpl in Hfull.
    rewrite <- Hfull. by apply remember_full. }
  split; [done|]. split; [by apply setitem_other|].
  intros now'. apply getitem_untracked.
  - unfold s'. by rewrite (proj2 (setitem_config s now key value)).
  - rewrite Hq'. rewrite Hq in Hnd. apply NoDup_cons in Hnd as [Hold _].
    intros [?| ?%list_elem_of_singleton]%elem_of_app; done.
Qed.


(** *** Runs of writes of different keys *)

Lemma run_writes_cons s now kv kvs :
  run s (writes now (kv :: kvs)) =
  run (__setitem__ s now kv.1 kv.2) (writes now kvs).
Proof. done. Qed.

Lemma run_writes_snoc s now kvs kv :
  run s (writes now (kvs ++ [kv])) =
  __setitem__ (run s (writes now kvs)) now kv.1 kv.2.
Proof. unfold run, writes. by rewrite fmap_app, foldl_app. Qed.

(** Writes of other keys leave the value and the timestamp of [k] alone. *)
Lemma run_writes_other s now kvs k :
  k ∉ kvs.*1 →
  _cache (run s (writes now kvs)) !! k = _cache s !! k ∧
  _times (run s (writes now kvs)) !! k = _times s !! k.
Proof.
  revert s. induction kvs as [|kv kvs IH]; intros s Hk; [done|].
  rewrite fmap_cons, not_elem_of_cons in Hk. destruct Hk as [Hne Hk].
  rewrite run_writes_cons. destruct (IH (__setitem__ s now kv.1 kv.2) Hk) as [-> ->].
  by apply setitem_other.
Qed.

(** After writes of different keys every pair written is stored, with the
    time of the write when an expiry time is set. *)
Lemma run_writes_stored s now kvs k v :
  NoDup kvs.*1 → (k, v) ∈ kvs →
  _cache (run s (writes now kvs)) !! k = Some v ∧
  (is_Some (_expiry_time s) → _times (run s (writes now kvs)) !! k = Some now).
Proof.
  revert s. induction kvs as [|kv kvs IH]; intros s Hnd Hin.
  { by apply elem_of_nil in Hin. }
  rewrite fmap_cons, NoDup_cons in Hnd. destruct Hnd as [Hfresh Hnd].
  rewrite run_writes_cons. apply elem_of_cons in Hin as [<- | Hin].
  - simpl in *. destruct (run_writes_other (__setitem__ s now k v) now kvs k Hfresh)
      as [-> ->]. apply setitem_key.
  - destruct (IH (__setitem__ s now kv.1 kv.2) Hnd Hin) as [Hc Ht].
    split; [done|]. intros He. apply Ht.
    by rewrite (proj1 (setitem_config s now kv.1 kv.2)).
Qed.

(** While the tracker has room, writes of new keys add them in order. *)
Lemma run_writes_room s now kvs :
  truthy (_max_paths s) = true →
  NoDup (_q s ++ kvs.*1) →
  (length (_q s) + length kvs ≤ maxsize s)%nat →
  _q (run s (writes now kvs)) = _q s ++ kvs.*1.
Proof.
  revert s. induction kvs as [|kv kvs IH]; intros s Ht Hnd Hlen.
  { simpl. by rewrite app_nil_r. }
  rewrite run_writes_cons. rewrite fmap_cons in *. simpl in Hlen.
  assert (kv.1 ∉ _q s) as Hnew.
  { apply NoDup_app in Hnd as (_ & Hd & _). intros Hin.
    apply (Hd _ Hin). by apply elem_of_cons; left. }
  assert (_q (__setitem__ s now kv.1 kv.2) = _q s ++ [kv.1]) as Hq.
  { rewrite setitem_q, Ht, (proj2 (call_q_miss s _ Hnew)).
    apply remember_room. lia. }
  destruct (setitem_config s now kv.1 kv.2) as [_ Hmp].
  rewrite IH; rewrite ?Hq, ?Hmp, <- ?app_assoc; try done.
  unfold maxsize. rewrite Hmp. fold (maxsize s). rewrite length_app. simpl. lia.
Qed.

Lemma not_expired_at_write s now k T :
  _expiry_time s = Some T → 0 ≤ T → _times s !! k = Some now →
  expired s now k = false.
Proof.
  intros He HT Hk. unfold expired. rewrite He, Hk. simpl.
  apply Z.ltb_ge. lia.
Qed.

(** *** What [max_paths + 1] makes of the bound *)

(** C2, as the code has it.  With [max_paths = N], after [N + 1]
    different keys were inserted in order and nothing was read, every one
    of them is found, the first one too: the tracker is an [lru_cache] of
    size [N + 1], where the docstring of [__init__] makes [max_paths] the
    number of listings that are considered valid. *)
Theorem memory_first_of_N_plus_1_kept e N now kvs :
  0 < N → (∀ T, e = Some T → 0 ≤ T) →
  NoDup kvs.*1 → Z.of_nat (length kvs) = N + 1 →
  ∀ k, k ∈ kvs.*1 →
    (__contains__ (run (__init__ e (Some N)) (writes now kvs)) now k).1 = true.
Proof.
  intros HN He Hnd Hlen k Hk.
  set (s := run (__init__ e (Some N)) (writes now kvs)).
  destruct (run_config (__init__ e (Some N)) (writes now kvs)) as [Hexp Hmp].
  fold s in Hexp, Hmp. simpl in Hexp, Hmp.
  apply list_elem_of_fmap in Hk as ([k' v] & -> & Hin). simpl.
  destruct (run_writes_stored (__init__ e (Some N)) now kvs k' v Hnd Hin)
    as [Hc Ht]. fold s in Hc, Ht. simpl in Ht.
  apply contains_getitem. exists v. apply getitem_found; [done| |].
  - destruct e as [T|].
    + eapply not_expired_at_write; [by rewrite Hexp | by apply He | by apply Ht].
    + unfold expired. by rewrite Hexp.
  - intros _. unfold s. rewrite run_writes_room; simpl.
    + apply list_elem_of_fmap. by exists (k', v).
    + by apply negb_true_iff, Z.eqb_neq, Z.neq_sym, Z.lt_neq.
    + done.
    + unfold maxsize, lru_cache.clamp. simpl. lia.
Qed.

Lemma memory_first_of_N_plus_1_kept_witness :
  (__contains__
     (run (__init__ None (Some 1)) (writes 0 [("a", []); ("b", [])])) 0 "a").1
  = true.
Proof.
  apply (memory_first_of_N_plus_1_kept None 1 0 [("a", []); ("b", [])]).
  - lia.
  - intros T HT. discriminate HT.
  - simpl. apply NoDup_cons. split.
    + intros Hin%list_elem_of_singleton. discriminate Hin.
    + apply NoDup_singleton.
  - reflexivity.
  - simpl. apply elem_of_cons. by left.
Defined.

(** C3, as the code has it.  With [max_paths = 2], after [set(a)],
    [set(b)], [get(a)], [set(c)] all three keys are found: the tracker of
    size [3] still holds [b].  The read did move [a] behind [b]. *)
Theorem memory_read_then_write_keeps_all (va vb vc : listing) :
  let s := run (__init__ None (Some 2))
             [(0, Set_ "a" va); (1, Set_ "b" vb); (2, Get "a");
              (3, Set_ "c" vc)] in
  _q s = ["b"; "a"; "c"] ∧
  (__contains__ s 4 "b").1 = true ∧
  (__contains__ s 4 "a").1 = true ∧
  (__contains__ s 4 "c").1 = true.
Proof. vm_compute. done. Qed.

Lemma keys_of_empty_listings (l : list string) :
  ((λ p, (p, [] : listing)) <$> l).*1 = l.
Proof. induction l as [|p l IH]; [done | by rewrite !fmap_cons, IH]. Qed.

(** C10.  With [max_paths = N], [N] positive, there are [N + 2] different
    keys such that, once they are written in order, the first of them is
    still in the value store and has not expired, and a read of it fails
    with [KeyError] and removes it from the value store. *)
Theorem memory_read_destroys_stored_entry e N now :
  0 < N → (∀ T, e = Some T → 0 ≤ T) →
  ∃ kvs : list (string * listing),
    NoDup kvs.*1 ∧ Z.of_nat (length kvs) = N + 2 ∧
    let s := run (__init__ e (Some N)) (writes now kvs) in
    ∃ k v,
      _cache s !! k = Some v ∧ expired s now k = false ∧
      (__getitem__ s now k).1 = Raise KeyError ∧
      _cache (__getitem__ s now k).2 !! k = None.
Proof.
  intros HN He.
  set (n := Z.to_nat (N + 1)).
  set (front := (λ p, (p, [] : listing)) <$> paths n).
  set (last := (pretty n, [] : listing)).
  assert ((front ++ [last]).*1 = paths (S n)) as Hkeys.
  { unfold front, last, paths.
    by rewrite fmap_app, keys_of_empty_listings, seq_S, fmap_app. }
  assert (NoDup (paths (S n))) as Hnd
    by (apply NoDup_fmap_2; [apply _ | apply NoDup_seq]).
  exists (front ++ [last]). split; [by rewrite Hkeys|]. split.
  { unfold front, paths. rewrite length_app, !length_fmap, length_seq.
    simpl. lia. }
  intros s. unfold s. rewrite run_writes_snoc.
  set (s0 := run (__init__ e (Some N)) (writes now front)).
  destruct (run_config (__init__ e (Some N)) (writes now front)) as [Hexp Hmp].
  fold s0 in Hexp, Hmp. simpl in Hexp, Hmp.
  assert (truthy (_max_paths s0) = true) as Ht.
  { rewrite Hmp. simpl. by apply negb_true_iff, Z.eqb_neq, Z.neq_sym, Z.lt_neq. }
  assert (maxsize s0 = n) as Hm.
  { unfold maxsize. rewrite Hmp. unfold lru_cache.clamp, n. lia. }
  rewrite <- Hkeys, fmap_app in Hnd.
  assert (length front = n) as Hlen
    by (unfold front, paths; by rewrite !length_fmap, length_seq).
  assert (_q s0 = front.*1) as Hq.
  { unfold s0. rewrite run_writes_room; [done | by rewrite <- Hmp | |].
    - by apply NoDup_app in Hnd as [? _].
    - unfold maxsize, lru_cache.clamp. simpl. lia. }
  destruct front as [|[k v] front'] eqn:Hfront.
  { simpl in Hlen. lia. }
  assert (tracker_ok s0) as Hok by apply run_tracker_ok, init_tracker_ok.
  assert (last.1 ∉ _q s0) as Hnew.
  { rewrite Hq. apply NoDup_app in Hnd as (_ & Hd & _). intros Hin.
    apply (Hd _ Hin). by apply list_elem_of_singleton. }
  destruct (setitem_overflow s0 now last.1 last.2 k (front'.*1) Ht Hok)
    as (Hq' & Hc & Hget); try done.
  { by rewrite Hq, Hm, length_fmap. }
  assert (NoDup ((k, v) :: front').*1) as Hnd0
    by (by apply NoDup_app in Hnd as [? _]).
  destruct (run_writes_stored (__init__ e (Some N)) now ((k, v) :: front')
              k v Hnd0) as [Hc0 Ht0]; [by apply elem_of_cons; left|].
  fold s0 in Hc0, Ht0. simpl in Ht0.
  assert (k ≠ last.1) as Hne.
  { intros ->. apply Hnew. rewrite Hq. by apply elem_of_cons; left. }
  exists k, v. split; [by rewrite Hc|]. split; [|apply Hget].
  destruct (setitem_config s0 now last.1 last.2) as [Hexp' _].
  unfold expired. rewrite Hexp', Hexp. destruct e as [T|]; [|done].
  rewrite (proj2 (setitem_other s0 now last.1 last.2 k Hne)), Ht0 by done.
  simpl. apply Z.ltb_ge. specialize (He T eq_refl). lia.
Qed.

Lemma memory_read_destroys_stored_entry_witness :
  ∃ kvs : list (string * listing),
    NoDup kvs.*1 ∧ Z.of_nat (length kvs) = 1 + 2 ∧
    let s := run (__init__ (Some 60) (Some 1)) (writes 1000 kvs) in
    ∃ k v,
      _cache s !! k = Some v ∧ expired s 1000 k = false ∧
      (__getitem__ s 1000 k).1 = Raise KeyError ∧
      _cache (__getitem__ s 1000 k).2 !! k = None.
Proof.
  apply (memory_read_destroys_stored_entry (Some 60) 1 1000).
  - lia.
  - intros T HT. injection HT as <-. lia.
Defined.

(** *** Timestamps and expiry *)



(** After a write the tracker, if there is one of a size above zero,
    holds the key. *)
Lemma setitem_tracked s now key value :
  truthy (_max_paths s) = true → (0 < maxsize s)%nat →
  key ∈ _q (__setitem__ s now key value).
Proof.
  intros Ht Hm. rewrite setitem_q, Ht.
  destruct (decide (key ∈ _q s)) as [Hin | Hin].
  - rewrite (proj2 (call_q_hit s key Hin)). apply elem_of_promote. by right.
  - rewrite (proj2 (call_q_miss s key Hin)). by apply elem_of_remember_key.
Qed.


Lemma run_snoc s calls call : run s (calls ++ [call]) = step (run s calls) call.
Proof. unfold run. by rewrite foldl_app. Qed.




(** *** Further properties of single calls *)

(** A read that fails leaves no value under the key. *)
Lemma getitem_Raise_absent s now item e :
  (__getitem__ s now item).1 = Raise e →
  _cache (__getitem__ s now item).2 !! item = None.
Proof.
  cases_of_call; rewrite ?lookup_delete_eq in *; intros; simplify_eq; done.
Qed.

(** A read that succeeds leaves the value store as it is. *)
Lemma getitem_Return_cache s now item v :
  (__getitem__ s now item).1 = Return v →
  _cache (__getitem__ s now item).2 = _cache s.
Proof.
  intros Hget.
  destruct (__getitem__ s now item) as [r s'] eqn:Hcall. simpl in Hget.
  subst r. pose proof Hcall as (Hv & Hexp & Hq)%getitem_Return.
  revert Hcall. unfold __getitem__. rewrite Hexp.
  destruct (truthy (_max_paths s)) eqn:Ht.
  - destruct (call_q_hit s item (Hq eq_refl)) as [Hc _].
    rewrite Hc, Hv. by intros [= <-].
  - rewrite Hv. by intros [= <-].
Qed.

(** X1.  A failed read removes, a successful read keeps.  A read that
    raises leaves no value under its key, and a read that returns leaves
    the whole value store unchanged; either way the values of all other
    keys, the timestamps and the configuration stay as they are. *)
Theorem memory_read_effect s now item :
  match (__getitem__ s now item).1 with
  | Raise e => e = KeyError ∧ _cache (__getitem__ s now item).2 !! item = None
  | Return v =>
      _cache s !! item = Some v ∧ _cache (__getitem__ s now item).2 = _cache s
  end ∧
  (∀ k, k ≠ item → _cache (__getitem__ s now item).2 !! k = _cache s !! k) ∧
  _times (__getitem__ s now item).2 = _times s ∧
  _expiry_time (__getitem__ s now item).2 = _expiry_time s ∧
  _max_paths (__getitem__ s now item).2 = _max_paths s.
Proof.
  pose proof (getitem_frame s now item) as Hf. cbv zeta in Hf.
  destruct Hf as (Hr & Ht & He & Hm & Hother).
  split; [|done].
  destruct (__getitem__ s now item).1 as [v|e] eqn:Hres.
  - split; [|by apply (getitem_Return_cache s now item v)].
    destruct (__getitem__ s now item) as [r s'] eqn:Hcall. simpl in Hres.
    subst r. by apply getitem_Return in Hcall as (? & _).
  - split; [|by eapply getitem_Raise_absent].
    destruct Hr as [Hr | [v Hr]]; congruence.
Qed.

Lemma memory_read_effect_witness :
  let s := run (__init__ None (Some 1))
             (writes 0 [("a", []); ("b", []); ("c", [])]) in
  _cache (__getitem__ s 1 "a").2 !! "b" = _cache s !! "b".
Proof.
  intros s. destruct (memory_read_effect s 1 "a") as (_ & Hother & _).
  apply Hother. discriminate.
Defined.

(** X2.  A membership test repeated at once gives the same answer. *)
Theorem memory_contains_stable s now item :
  (__contains__ (__contains__ s now item).2 now item).1
  = (__contains__ s now item).1.
Proof.
  assert ((__contains__ s now item).2 = (__getitem__ s now item).2) as Hs.
  { unfold __contains__. by destruct (__getitem__ s now item) as [[?|?] ?]. }
  pose proof (getitem_frame s now item) as Hf. cbv zeta in Hf.
  destruct Hf as (_ & Ht & He & Hm & _).
  destruct (__contains__ s now item).1 eqn:Hfirst.
  - apply contains_getitem in Hfirst as [v Hget].
    apply contains_getitem. exists v. rewrite Hs.
    destruct (__getitem__ s now item) as [r s'] eqn:Hcall. simpl in *.
    subst r. pose proof Hcall as (Hv & Hexp & Hq)%getitem_Return.
    assert (_cache s' = _cache s) as Hc.
    { pose proof (getitem_Return_cache s now item v) as H'.
      rewrite Hcall in H'. by apply H'. }
    apply getitem_found.
    + by rewrite Hc.
    + unfold expired in *. by rewrite He, Ht.
    + rewrite Hm. intros Htr. specialize (Hq Htr).
      revert Hcall. unfold __getitem__. rewrite Hexp, Htr.
      destruct (call_q_hit s item Hq) as [Hc' Hq']. rewrite Hc', Hv.
      intros [= <-]. rewrite Hq'. apply elem_of_promote. by right.
  - destruct (__contains__ (__contains__ s now item).2 now item).1
      eqn:Hsecond; [exfalso|done].
    apply contains_getitem in Hsecond as [v Hget]. rewrite Hs in Hget.
    destruct (__getitem__ (__getitem__ s now item).2 now item)
      as [r s''] eqn:Hcall. simpl in Hget. subst r.
    apply getitem_Return in Hcall as (Hv & _).
    destruct (__getitem__ s now item).1 as [v'|e] eqn:Hres.
    + assert ((__contains__ s now item).1 = true) as Htrue
        by (apply contains_getitem; eauto). congruence.
    + apply getitem_Raise_absent in Hres. congruence.
Qed.

Lemma getitem_absent s now item :
  _cache s !! item = None → (__getitem__ s now item).1 = Raise KeyError.
Proof.
  intros Hnone. pose proof (getitem_frame s now item) as Hf. cbv zeta in Hf.
  destruct Hf as ([Hr | [v Hr]] & _); [done|].
  destruct (__getitem__ s now item) as [r s'] eqn:Hcall. simpl in Hr. subst r.
  apply getitem_Return in Hcall as (Hv & _). congruence.
Qed.

(** X3.  Write, then read.  After [set(k, v)] at [t0], whatever was stored
    under [k] before, [get(k)] returns [v] as long as the entry has not
    expired: at any time when no expiry time is set, and up to [t0 + T],
    that instant included, with an expiry time [T].  ([max_paths] unset or
    a count.) *)
Theorem memory_write_then_read s t0 k v t :
  (∀ n, _max_paths s = Some n → 0 ≤ n) →
  (∀ T, _expiry_time s = Some T → t ≤ t0 + T) →
  (__getitem__ (__setitem__ s t0 k v) t k).1 = Return v.
Proof.
  intros Hmp Hexp.
  destruct (setitem_config s t0 k v) as [He' Hmp'].
  destruct (setitem_key s t0 k v) as [Hc Ht].
  apply getitem_found; [done| |].
  - unfold expired. rewrite He'. destruct (_expiry_time s) as [T|] eqn:He;
      [|done].
    rewrite Ht by done. simpl. apply Z.ltb_ge. specialize (Hexp T eq_refl). lia.
  - intros Htruthy. rewrite Hmp' in Htruthy. apply setitem_tracked; [done|].
    unfold maxsize. destruct (_max_paths s) as [n|]; [|done].
    specialize (Hmp n eq_refl). unfold lru_cache.clamp. lia.
Qed.

Lemma memory_write_then_read_witness :
  let s := run (__init__ (Some 60) (Some 1))
             (writes 0 [("a", []); ("b", []); ("c", [])]) in
  (__getitem__ (__setitem__ s 1000 "a" [entry.Build "a/x" 1 "file"]) 1060 "a").1
  = Return [entry.Build "a/x" 1 "file"].
Proof.
  intros s. apply memory_write_then_read.
  - intros n Hn. unfold s in Hn. rewrite (proj2 (run_config _ _)) in Hn.
    injection Hn as <-. lia.
  - intros T HT. unfold s in HT. rewrite (proj1 (run_config _ _)) in HT.
    injection HT as <-. lia.
Defined.

(** X4.  Deletion.  Deleting a key that is not stored raises [KeyError] and
    changes nothing.  Deleting a stored key succeeds, whether it has
    expired or not and whether the tracker holds it or not: the length
    goes down by one, the other keys keep their values and every later
    read of the key fails. *)
Theorem memory_delete s key :
  match _cache s !! key with
  | None => __delitem__ s key = (Raise KeyError, s)
  | Some _ =>
      (__delitem__ s key).1 = Return tt ∧
      S (__len__ (__delitem__ s key).2) = __len__ s ∧
      (∀ k, k ≠ key → _cache (__delitem__ s key).2 !! k = _cache s !! k) ∧
      (∀ now, (__getitem__ (__delitem__ s key).2 now key).1 = Raise KeyError)
  end.
Proof.
  unfold __delitem__, del_cache, __len__.
  destruct (_cache s !! key) as [v|] eqn:Hkey; [|done]. simpl.
  split; [done|]. split; [|split].
  - rewrite map_size_delete, Hkey. simpl.
    assert (size (_cache s) ≠ 0%nat); [|lia].
    intros Hzero%map_size_empty_inv. by rewrite Hzero in Hkey.
  - intros k Hne. by apply lookup_delete_ne.
  - intros now. apply getitem_absent. simpl. apply lookup_delete_eq.
Qed.

Lemma memory_delete_witness :
  let s := run (__init__ None None) (writes 0 [("a", []); ("b", [])]) in
  _cache (__delitem__ s "a").2 !! "b" = _cache s !! "b".
Proof.
  intros s. pose proof (memory_delete s "a") as Hdel.
  change (_cache s !! "a") with (Some ([] : listing)) in Hdel.
  destruct Hdel as (_ & _ & Hother & _). apply Hother. discriminate.
Defined.

(** X5.  [clear].  After [clear] the length is zero and every read fails,
    at any time; the tracker still holds the keys it held. *)
Theorem memory_clear s :
  __len__ (clear s) = 0%nat ∧
  (∀ now item, (__getitem__ (clear s) now item).1 = Raise KeyError) ∧
  (∀ now item, (__contains__ (clear s) now item).1 = false) ∧
  _q (clear s) = _q s.
Proof.
  split; [done|]. split; [|split; [|done]].
  - intros now item. by apply getitem_absent.
  - intros now item. unfold __contains__.
    pose proof (getitem_absent (clear s) now item (lookup_empty _)) as Hr.
    by destruct (__getitem__ (clear s) now item) as [[?|?] ?].
Qed.

(** X6.  The length after a write.  A write of a key that is not stored
    makes the value store one longer, whatever [max_paths] is; a write of
    a stored key leaves the length as it is. *)
Theorem memory_len_after_write s now key value :
  __len__ (__setitem__ s now key value)
  = match _cache s !! key with
    | Some _ => __len__ s
    | None => S (__len__ s)
    end.
Proof.
  unfold __len__.
  assert (_cache (__setitem__ s now key value) = <[key := value]> (_cache s))
    as ->.
  { unfold __setitem__, call_q. simpl.
    destruct (truthy _); [|done].
    destruct (lru_cache.hit _ _); [done|]. simpl. apply insert_delete_eq. }
  rewrite map_size_insert. by destruct (_cache s !! key).
Qed.

(** Calls other than writes put nothing into the value store. *)
Lemma step_adds_nothing s call k :
  (∀ v, call.2 ≠ Set_ k v) →
  _cache s !! k = None → _cache (step s call) !! k = None.
Proof.
  intros Hcall Hk.
  assert (∀ now item, _cache (__getitem__ s now item).2 !! k = None) as Hget.
  { intros now item. destruct (decide (k = item)) as [->|Hne].
    - by eapply getitem_Raise_absent, getitem_absent.
    - pose proof (getitem_frame s now item) as Hf. cbv zeta in Hf.
      destruct Hf as (_ & _ & _ & _ & Hother). by rewrite Hother. }
  destruct call as [now [key value|key|key|key|]]; cbn [step].
  - assert (k ≠ key) as Hne by (intros ->; by apply (Hcall value)).
    by rewrite (proj1 (setitem_other s now key value k Hne)).
  - apply Hget.
  - specialize (Hget now key). unfold __contains__.
    by destruct (__getitem__ s now key) as [[?|?] ?].
  - unfold __delitem__, del_cache. destruct (_cache s !! key); [|done].
    simpl. destruct (decide (k = key)) as [->|Hne].
    + apply lookup_delete_eq.
    + by rewrite lookup_delete_ne.
  - apply lookup_empty.
Qed.

(** X7.  A key that was never written is not found.  After any sequence of
    calls on a new cache among which there is no write of [k], a read of
    [k] fails with [KeyError] and [k] is not contained. *)
Theorem memory_never_written e mp calls k :
  (∀ now v, (now, Set_ k v) ∉ calls) →
  ∀ t, (__getitem__ (run (__init__ e mp) calls) t k).1 = Raise KeyError ∧
       (__contains__ (run (__init__ e mp) calls) t k).1 = false.
Proof.
  intros Hcalls t.
  assert (_cache (run (__init__ e mp) calls) !! k = None) as Hnone.
  { induction calls as [|call calls IH] using rev_ind; [done|].
    rewrite run_snoc. apply step_adds_nothing.
    - intros v Hcall. apply (Hcalls call.1 v). apply elem_of_app. right.
      apply list_elem_of_singleton. destruct call; simpl in *. by subst.
    - apply IH. intros now v Hin. apply (Hcalls now v), elem_of_app. by left. }
  pose proof (getitem_absent _ t k Hnone) as Hr. split; [done|].
  unfold __contains__.
  by destruct (__getitem__ (run (__init__ e mp) calls) t k) as [[?|?] ?].
Qed.

Lemma memory_never_written_witness :
  (__getitem__
     (run (__init__ None (Some 2)) [(0, Set_ "a" []); (1, Get "b"); (2, Clear)])
     3 "b").1 = Raise KeyError.
Proof.
  apply (memory_never_written None (Some 2)
           [(0, Set_ "a" []); (1, Get "b"); (2, Clear)] "b").
  intros now v Hin. repeat (apply elem_of_cons in Hin as [Heq | Hin];
    [discriminate Heq|]). by apply elem_of_nil in Hin.
Defined.

(** X8.  A negative [max_paths].  [lru_cache] takes a negative size as zero
    and then remembers nothing, so with [max_paths < 0] every read fails
    with [KeyError], also the read that follows a write of the same key. *)
Theorem memory_negative_max_paths e n calls now item :
  n < 0 →
  (__getitem__ (run (__init__ e (Some n)) calls) now item).1 = Raise KeyError.
Proof.
  intros Hn. set (s := run (__init__ e (Some n)) calls).
  assert (_max_paths s = Some n) as Hmp
    by (unfold s; by rewrite (proj2 (run_config _ _))).
  destruct (run_tracker_ok (__init__ e (Some n)) calls (init_tracker_ok _ _))
    as [_ Hlen]. fold s in Hlen.
  assert (_q s = []) as Hq.
  { unfold maxsize, lru_cache.clamp in Hlen. rewrite Hmp in Hlen.
    destruct (_q s); [done|]. simpl in Hlen. lia. }
  apply getitem_untracked.
  - rewrite Hmp. simpl. apply negb_true_iff, Z.eqb_neq. lia.
  - rewrite Hq. apply not_elem_of_nil.
Qed.

Lemma memory_negative_max_paths_witness :
  (__getitem__ (run (__init__ None (Some (-1))) [(0, Set_ "a" [])]) 0 "a").1
  = Raise KeyError.
Proof. apply memory_negative_max_paths. lia. Defined.

(** *** [max_paths = 0] *)

Lemma step_without_tracker s s' call :
  truthy (_max_paths s) = false → truthy (_max_paths s') = false →
  _cache s = _cache s' → _times s = _times s' → _q s = _q s' →
  _expiry_time s = _expiry_time s' →
  _cache (step s call) = _cache (step s' call) ∧
  _times (step s call) = _times (step s' call) ∧
  _q (step s call) = _q (step s' call).
Proof.
  destruct s as [c t q e mp], s' as [c' t' q' e' mp']. simpl.
  intros Hmp Hmp' <- <- <- <-.
  destruct call as [now [key value|key|key|key|]]; unfold step.
  - unfold __setitem__. simpl. by rewrite Hmp, Hmp'.
  - unfold __getitem__, del_cache, expired. simpl.
    destruct e as [T|]; [destruct (_ <? _)|]; destruct (c !! key) eqn:Hkey;
      simpl; rewrite ?Hmp, ?Hmp'; simpl;
      rewrite ?lookup_delete_eq, ?Hkey; done.
  - unfold __contains__, __getitem__, del_cache, expired. simpl.
    destruct e as [T|]; [destruct (_ <? _)|]; destruct (c !! key) eqn:Hkey;
      simpl; rewrite ?Hmp, ?Hmp'; simpl;
      rewrite ?lookup_delete_eq, ?Hkey; done.
  - unfold __delitem__, del_cache. simpl. by destruct (c !! key).
  - done.
Qed.

Lemma step_q_without_tracker s call :
  truthy (_max_paths s) = false → _q (step s call) = _q s.
Proof.
  intros Hmp. destruct call as [now [key value|key|key|key|]]; cbn [step].
  - by rewrite setitem_q, Hmp.
  - unfold __getitem__, del_cache.
    destruct (expired s now key), (_cache s !! key); simpl;
      rewrite ?Hmp; simpl; try done;
      repeat match goal with
        | |- context [match ?x !! ?i with _ => _ end] => destruct (x !! i)
        end; done.
  - unfold __contains__, __getitem__, del_cache.
    destruct (expired s now key), (_cache s !! key); simpl;
      rewrite ?Hmp; simpl; try done;
      repeat match goal with
        | |- context [match ?x !! ?i with _ => _ end] => destruct (x !! i)
        end; done.
  - unfold __delitem__, del_cache. by destruct (_cache s !! key).
  - done.
Qed.

(** X9.  [max_paths = 0] bounds nothing.  Zero is false for [if max_paths],
    so no tracker is built: after any sequence of calls a cache made with
    [max_paths = 0] holds the same values and timestamps as one made with
    no [max_paths], and a write never makes a stored key unreadable. *)
Theorem memory_max_paths_zero e calls :
  let s0 := run (__init__ e (Some 0)) calls in
  let s := run (__init__ e None) calls in
  _cache s0 = _cache s ∧ _times s0 = _times s ∧ _q s0 = [] ∧
  ∀ now item, (__getitem__ s0 now item).1 = (__getitem__ s now item).1.
Proof.
  intros s0 s.
  assert (_cache s0 = _cache s ∧ _times s0 = _times s ∧ _q s0 = _q s ∧
          _q s = []) as (Hc & Ht & Hq & Hnil).
  { unfold s0, s. induction calls as [|call calls IH] using rev_ind; [done|].
    rewrite !run_snoc. destruct IH as (Hc & Ht & Hq & Hnil).
    destruct (step_without_tracker (run (__init__ e (Some 0)) calls)
                (run (__init__ e None) calls) call) as (? & ? & ?);
      rewrite ?(proj2 (run_config _ _)), ?(proj1 (run_config _ _)); try done.
    repeat split; try done.
    rewrite step_q_without_tracker; [done|].
    by rewrite (proj2 (run_config _ _)). }
  split; [done|]. split; [done|]. split; [congruence|].
  intros now item.
  assert (_expiry_time s0 = _expiry_time s) as He
    by (unfold s0, s; by rewrite !(proj1 (run_config _ _))).
  assert (truthy (_max_paths s0) = false) as Hmp0
    by (unfold s0; by rewrite (proj2 (run_config _ _))).
  assert (truthy (_max_paths s) = false) as Hmp
    by (unfold s; by rewrite (proj2 (run_config _ _))).
  unfold __getitem__, del_cache, expired. rewrite He, Ht, Hc.
  destruct (_expiry_time s) as [T|]; [destruct (_ <? _)|];
    destruct (_cache s !! item) eqn:Hitem; simpl;
    rewrite ?Hmp0, ?Hmp; simpl; rewrite ?Hc, ?lookup_delete_eq, ?Hitem; done.
Qed.

(** *** Misses and the tracker *)

(** X10.  A miss costs a tracked key.  With a full tracker, a read of a key
    that the tracker does not hold (and that the expiry test lets through)
    fails, and it also takes the place of the least recently touched key
    in the tracker: that key keeps its stored value, yet every read of it
    from then on fails. *)
Theorem memory_miss_displaces s now k old rest :
  truthy (_max_paths s) = true → tracker_ok s →
  _q s = old :: rest → length (_q s) = maxsize s →
  k ∉ _q s → expired s now k = false →
  let s' := (__getitem__ s now k).2 in
  (__getitem__ s now k).1 = Raise KeyError ∧
  _q s' = rest ++ [k] ∧
  _cache s' !! old = _cache s !! old ∧
  ∀ now', (__getitem__ s' now' old).1 = Raise KeyError.
Proof.
  intros Ht [Hnd _] Hq Hfull Hk Hexp s'.
  assert (old ≠ k) as Hne.
  { intros ->. apply Hk. rewrite Hq. by apply elem_of_cons; left. }
  destruct (call_q_miss s k Hk) as [Hc Hq'].
  assert (s' = call_q s k) as Hs'.
  { unfold s', __getitem__. rewrite Hexp, Ht, Hc, lookup_delete_eq. done. }
  split; [by apply getitem_untracked|].
  assert (_q s' = rest ++ [k]) as Hqs'.
  { rewrite Hs', Hq'. rewrite Hq in Hfull |- *. simpl in Hfull.
    rewrite <- Hfull. by apply remember_full. }
  split; [done|]. split.
  - rewrite Hs', Hc. by apply lookup_delete_ne.
  - intros now'. apply getitem_untracked.
    + rewrite Hs'. by rewrite (proj1 (proj2 (proj2 (call_q_config s k)))).
    + rewrite Hqs'. rewrite Hq in Hnd. apply NoDup_cons in Hnd as [Hold _].
      intros [?| ?%list_elem_of_singleton]%elem_of_app; done.
Qed.

Lemma memory_miss_displaces_witness :
  let s := run (__init__ None (Some 1)) (writes 0 [("a", []); ("b", [])]) in
  let s' := (__getitem__ s 1 "z").2 in
  (__getitem__ s 1 "a").1 = Return [] ∧
  (__getitem__ s' 2 "a").1 = Raise KeyError.
Proof.
  intros s s'. split; [reflexivity|].
  destruct (memory_miss_displaces s 1 "z" "a" ["b"]) as (_ & _ & _ & Hgone).
  - reflexivity.
  - apply run_tracker_ok, init_tracker_ok.
  - reflexivity.
  - reflexivity.
  - intros Hin. repeat (apply elem_of_cons in Hin as [Heq | Hin];
      [discriminate Heq|]). by apply elem_of_nil in Hin.
  - reflexivity.
  - apply Hgone.
Defined.

(** X11.  A read protects its key from the next write.  After a successful
    read of [k] (and with [max_paths] unset or a count), [k] survives one
    more write, of whatever key: it is still held by the tracker, its value
    is still stored, and a read of it that the expiry test lets through
    returns the value. *)
Theorem memory_read_protects s now k v now' key value :
  (∀ n, _max_paths s = Some n → 0 ≤ n) →
  (__getitem__ s now k).1 = Return v → key ≠ k →
  let s' := __setitem__ (__getitem__ s now k).2 now' key value in
  _cache s' !! k = Some v ∧
  ∀ t, expired s' t k = false → (__getitem__ s' t k).1 = Return v.
Proof.
  intros Hmp Hget Hne s'.
  set (s1 := (__getitem__ s now k).2) in *.
  pose proof (getitem_Return_cache s now k v Hget) as Hc1. fold s1 in Hc1.
  pose proof (getitem_frame s now k) as Hf. cbv zeta in Hf.
  destruct Hf as (_ & _ & _ & Hmp1 & _). fold s1 in Hmp1.
  destruct (__getitem__ s now k) as [r s1'] eqn:Hcall. simpl in Hget, s1.
  subst r. pose proof Hcall as (Hv & Hexp & Hq)%getitem_Return.
  assert (_cache s' !! k = Some v) as Hc'.
  { unfold s'.
    rewrite (proj1 (setitem_other s1 now' key value k (not_eq_sym Hne))).
    by rewrite Hc1. }
  split; [done|]. intros t Hexp'. apply getitem_found; [done..|].
  unfold s'. rewrite (proj2 (setitem_config s1 now' key value)), Hmp1.
  intros Ht. specialize (Hq Ht).
  assert (_q s1 = lru_cache.promote (_q s) k) as Hq1.
  { unfold s1. revert Hcall. unfold __getitem__. rewrite Hexp, Ht.
    destruct (call_q_hit s k Hq) as [Hc Hq']. rewrite Hc, Hv.
    intros [= <-]. done. }
  rewrite setitem_q, Hmp1, Ht.
  destruct (decide (key ∈ _q s1)) as [Hin | Hin].
  - rewrite (proj2 (call_q_hit s1 key Hin)). apply elem_of_promote. left.
    rewrite Hq1. apply elem_of_promote. by right.
  - rewrite (proj2 (call_q_miss s1 key Hin)), Hq1.
    assert (2 ≤ maxsize s1)%nat as Hm.
    { unfold maxsize. rewrite Hmp1. destruct (_max_paths s) as [n|] eqn:Hn;
        [|done]. specialize (Hmp n eq_refl). simpl in Ht.
      apply negb_true_iff, Z.eqb_neq in Ht. unfold lru_cache.clamp. lia. }
    unfold lru_cache.remember, lru_cache.promote.
    destruct (maxsize s1) as [|m] eqn:Hms; [lia|].
    set (l := filter (λ k0, k0 ≠ k) (_q s)).
    destruct (Nat.leb_spec (S m) (length (l ++ [k]))) as [Hfull|Hroom].
    + destruct l as [|x l'].
      * simpl in Hfull. lia.
      * simpl. apply elem_of_app. left. apply elem_of_app. right.
        by apply list_elem_of_singleton.
    + apply elem_of_app. left. apply elem_of_app. right.
      by apply list_elem_of_singleton.
Qed.

Lemma memory_read_protects_witness :
  let s := run (__init__ None (Some 1)) (writes 0 [("a", []); ("b", [])]) in
  let s' := __setitem__ (__getitem__ s 1 "a").2 2 "c" [] in
  (__getitem__ s' 3 "a").1 = Return [] ∧
  (__getitem__ s' 3 "b").1 = Raise KeyError.
Proof.
  intros s s'. split; [|reflexivity].
  destruct (memory_read_protects s 1 "a" [] 2 "c" []) as [_ Hread].
  - intros n Hn. unfold s in Hn. rewrite (proj2 (run_config _ _)) in Hn.
    injection Hn as <-. lia.
  - reflexivity.
  - discriminate.
  - apply Hread. reflexivity.
Defined.

(** *** The tracker after a run of writes *)

Lemma remember_drop m (L : list string) k :
  (0 < m)%nat →
  lru_cache.remember m (drop (length L - m) L) k
  = drop (length (L ++ [k]) - m) (L ++ [k]).
Proof.
  intros Hm. rewrite length_app. simpl.
  destruct (decide (length L < m)%nat) as [Hlt | Hge].
  - replace (length L - m)%nat with 0%nat by lia.
    replace (length L + 1 - m)%nat with 0%nat by lia.
    rewrite !drop_0. by apply remember_room.
  - set (d := (length L - m)%nat).
    replace (length L + 1 - m)%nat with (S d) by lia.
    assert (length (drop d L) = m) as Hlen by (rewrite length_drop; lia).
    rewrite drop_app_le by lia.
    assert (drop (S d) L = tail (drop d L)) as ->.
    { replace (S d) with (d + 1)%nat by lia. rewrite <- drop_drop.
      by destruct (drop d L). }
    destruct m as [|m']; [lia|].
    destruct (drop d L) as [|x r] eqn:Hd; [done|].
    by apply remember_full.
Qed.

(** X12.  Which keys a run of writes leaves readable.  On a new cache with
    [max_paths = N], [N] positive, after writes of different keys the
    tracker holds the last [N + 1] keys written, in the order of writing,
    and a written key is contained exactly when it is one of those. *)
Theorem memory_last_written_are_readable e N now kvs :
  0 < N → (∀ T, e = Some T → 0 ≤ T) → NoDup kvs.*1 →
  let s := run (__init__ e (Some N)) (writes now kvs) in
  let recent := drop (length kvs - Z.to_nat (N + 1)) kvs.*1 in
  _q s = recent ∧
  ∀ k, k ∈ kvs.*1 → ((__contains__ s now k).1 = true ↔ k ∈ recent).
Proof.
  intros HN He Hnd s recent.
  assert (truthy (Some N) = true) as Ht.
  { simpl. apply negb_true_iff, Z.eqb_neq. lia. }
  assert (_q s = recent) as Hq.
  { unfold s, recent. clear s recent.
    induction kvs as [|kv kvs IH] using rev_ind; [done|].
    rewrite fmap_app in Hnd. apply NoDup_app in Hnd as (Hnd & Hnew & _).
    specialize (IH Hnd). rewrite run_writes_snoc.
    set (s := run (__init__ e (Some N)) (writes now kvs)) in *.
    assert (_max_paths s = Some N) as Hmp
      by (unfold s; by rewrite (proj2 (run_config _ _))).
    assert (kv.1 ∉ _q s) as Hmiss.
    { rewrite IH. intros Hin. eapply elem_of_sublist in Hin;
        [|apply sublist_drop]. apply (Hnew _ Hin). simpl.
      by apply list_elem_of_singleton. }
    rewrite setitem_q, Hmp, Ht, (proj2 (call_q_miss s _ Hmiss)), IH.
    unfold maxsize. rewrite Hmp. unfold lru_cache.clamp.
    replace (Z.to_nat (Z.max 0 (N + 1))) with (Z.to_nat (N + 1)) by lia.
    rewrite fmap_app. simpl. rewrite <- (length_fmap fst kvs).
    rewrite remember_drop by lia. by rewrite !length_app, !length_fmap. }
  split; [done|]. intros k Hk.
  destruct (run_config (__init__ e (Some N)) (writes now kvs)) as [Hexp Hmp].
  fold s in Hexp, Hmp. simpl in Hexp, Hmp. rewrite <- Hq. split.
  - intros [v Hget]%contains_getitem.
    destruct (__getitem__ s now k) as [r s'] eqn:Hcall. simpl in Hget. subst r.
    apply getitem_Return in Hcall as (_ & _ & Htr). apply Htr. by rewrite Hmp.
  - intros Hin. apply list_elem_of_fmap in Hk as ([k' v] & -> & Hkv). simpl in *.
    destruct (run_writes_stored (__init__ e (Some N)) now kvs k' v Hnd Hkv)
      as [Hc Htime]. fold s in Hc, Htime. simpl in Htime.
    apply contains_getitem. exists v. apply getitem_found; [done| |done].
    destruct e as [T|].
    + eapply not_expired_at_write; [by rewrite Hexp | by apply He |].
      by apply Htime.
    + unfold expired. by rewrite Hexp.
Qed.

Lemma memory_last_written_are_readable_witness :
  let s := run (__init__ (Some 60) (Some 1))
             (writes 5 [("a", []); ("b", []); ("c", []); ("d", [])]) in
  _q s = ["c"; "d"].
Proof.
  intros s.
  destruct (memory_last_written_are_readable (Some 60) 1 5
              [("a", []); ("b", []); ("c", []); ("d", [])]) as [Hq _].
  - lia.
  - intros T HT. injection HT as <-. lia.
  - simpl. repeat (apply NoDup_cons; split;
      [intros Hin; repeat (apply elem_of_cons in Hin as [Heq | Hin];
         [discriminate Heq|]); by apply elem_of_nil in Hin|]).
    apply NoDup_nil_2.
  - exact Hq.
Defined.

(** *** Iteration *)

Lemma contains_state s now item :
  (__contains__ s now item).2 = (__getitem__ s now item).2.
Proof. unfold __contains__. by destruct (__getitem__ s now item) as [[?|?] ?]. Qed.

Lemma contains_other s now item k :
  k ≠ item → _cache (__contains__ s now item).2 !! k = _cache s !! k.
Proof.
  intros Hne. rewrite contains_state.
  pose proof (getitem_frame s now item) as Hf. cbv zeta in Hf.
  destruct Hf as (_ & _ & _ & _ & Hother). by apply Hother.
Qed.

Lemma contains_found s now item :
  (__contains__ s now item).1 = true →
  is_Some (_cache s !! item) ∧ _cache (__contains__ s now item).2 = _cache s.
Proof.
  intros [v Hget]%contains_getitem. rewrite contains_state. split.
  - destruct (__getitem__ s now item) as [r s'] eqn:Hcall. simpl in Hget.
    subst r. apply getitem_Return in Hcall as (Hv & _). by exists v.
  - by apply (getitem_Return_cache s now item v).
Qed.

Lemma contains_not_found s now item :
  (__contains__ s now item).1 = false →
  _cache (__contains__ s now item).2 !! item = None.
Proof.
  intros Hc. rewrite contains_state.
  destruct (__getitem__ s now item).1 as [v|e] eqn:Hres.
  - assert ((__contains__ s now item).1 = true) as Htrue
      by (apply contains_getitem; eauto). congruence.
  - by eapply getitem_Raise_absent.
Qed.

Lemma generate_cons s now k entries :
  generate s ((now, k) :: entries)
  = ((if (__contains__ s now k).1 then k :: (generate (__contains__ s now k).2 entries).1
      else (generate (__contains__ s now k).2 entries).1),
     (generate (__contains__ s now k).2 entries).2).
Proof.
  simpl. destruct (__contains__ s now k) as [found s1]. simpl.
  by destruct (generate s1 entries).
Qed.

Lemma generate_other s entries k :
  k ∉ entries.*2 → _cache (generate s entries).2 !! k = _cache s !! k.
Proof.
  revert s. induction entries as [|[now k'] entries IH]; intros s Hk; [done|].
  rewrite fmap_cons, not_elem_of_cons in Hk. destruct Hk as [Hne Hk].
  rewrite generate_cons. simpl. rewrite IH by done. by apply contains_other.
Qed.

Lemma generate_yields s entries :
  NoDup entries.*2 →
  (generate s entries).1 `sublist_of` entries.*2 ∧
  ∀ k, k ∈ entries.*2 →
    (k ∈ (generate s entries).1 ↔ is_Some (_cache (generate s entries).2 !! k)) ∧
    (k ∈ (generate s entries).1 →
     _cache (generate s entries).2 !! k = _cache s !! k).
Proof.
  revert s. induction entries as [|[now k'] entries IH]; intros s Hnd.
  { split; [done|]. intros k Hk. by apply elem_of_nil in Hk. }
  rewrite fmap_cons, NoDup_cons in Hnd. destruct Hnd as [Hfresh Hnd].
  rewrite generate_cons. simpl.
  set (s1 := (__contains__ s now k').2).
  destruct (IH s1 Hnd) as [Hsub Hkeys].
  pose proof (generate_other s1 entries k' Hfresh) as Hk'.
  assert (k' ∉ (generate s1 entries).1) as Hnot
    by (intros Hin; by eapply Hfresh, elem_of_sublist).
  destruct (__contains__ s now k').1 eqn:Hfound.
  - apply contains_found in Hfound as [Hsome Hc]. fold s1 in Hc.
    split; [by apply sublist_skip|]. intros k [-> | Hk]%elem_of_cons.
    + rewrite Hk', Hc. split; [|done]. split; [done|].
      intros _. apply elem_of_cons. by left.
    + destruct (Hkeys k Hk) as [Hiff Hval].
      assert (k ≠ k') as Hne by (by intros ->).
      split.
      * rewrite <- Hiff. rewrite elem_of_cons. split; [|by right].
        by intros [? | ?].
      * intros [-> | Hin]%elem_of_cons; [done|]. by rewrite Hval, Hc.
  - apply contains_not_found in Hfound. fold s1 in Hfound.
    split; [by apply sublist_cons|]. intros k [-> | Hk]%elem_of_cons.
    + rewrite Hk', Hfound. split; [|done].
      split; [done | by intros [? ?]].
    + destruct (Hkeys k Hk) as [Hiff Hval].
      assert (k ≠ k') as Hne by (by intros ->).
      split; [done|]. intros Hin. rewrite Hval by done.
      by apply contains_other.
Qed.

(** X13.  Iteration yields the keys that survive it.  Run to its end over
    the keys of the value store, the iterator yields them in the order of
    the store, leaving out those whose membership test fails; once it is
    done the value store holds the yielded keys, each with the value it
    had, and no other key. *)
Theorem memory_iter_yields_survivors s entries :
  snapshot s entries →
  (__iter__ s entries).1 `sublist_of` entries.*2 ∧
  (∀ k, k ∈ (__iter__ s entries).1 ↔
        is_Some (_cache (__iter__ s entries).2 !! k)) ∧
  (∀ k, k ∈ (__iter__ s entries).1 →
        _cache (__iter__ s entries).2 !! k = _cache s !! k).
Proof.
  intros [Hnd Hsnap]. unfold __iter__.
  destruct (generate_yields s entries Hnd) as [Hsub Hkeys].
  split; [done|]. split.
  - intros k. destruct (decide (k ∈ entries.*2)) as [Hk | Hk].
    + by apply Hkeys.
    + rewrite generate_other by done. split.
      * intros Hin. destruct Hk. by eapply elem_of_sublist.
      * intros Hsome. destruct Hk. by apply Hsnap.
  - intros k Hin. apply Hkeys; [|done]. by eapply elem_of_sublist.
Qed.

Lemma memory_iter_yields_survivors_witness :
  let s := run (__init__ None (Some 1))
             (writes 0 [("a", []); ("b", []); ("c", [])]) in
  (__iter__ s [(1, "a"); (1, "b"); (1, "c")]).1 = [] ∧
  _cache (__iter__ s [(1, "a"); (1, "b"); (1, "c")]).2 !! "b" = None.
Proof.
  intros s. split; [reflexivity|].
  destruct (memory_iter_yields_survivors s [(1, "a"); (1, "b"); (1, "c")])
    as (_ & Hiff & _).
  - split.
    + simpl. repeat (apply NoDup_cons; split;
        [intros Hin; repeat (apply elem_of_cons in Hin as [Heq | Hin];
           [discriminate Heq|]); by apply elem_of_nil in Hin|]).
      apply NoDup_nil_2.
    + intros k. split.
      * intros Hin. simpl in Hin.
        repeat (apply elem_of_cons in Hin as [-> | Hin];
          [by eexists|]). by apply elem_of_nil in Hin.
      * intros [v Hv]. simpl. destruct (decide (k = "a")) as [->|Ha];
          [apply elem_of_cons; by left|].
        destruct (decide (k = "b")) as [->|Hb];
          [apply elem_of_cons; right; apply elem_of_cons; by left|].
        destruct (decide (k = "c")) as [->|Hc];
          [do 2 (apply elem_of_cons; right); apply elem_of_cons; by left|].
        exfalso.
        assert (_cache s = <["c" := []]> (<["b" := []]> (<["a" := []]> ∅)))
          as Hs by (by vm_compute).
        rewrite Hs in Hv.
        by rewrite !lookup_insert_ne, lookup_empty in Hv by done.
  - destruct (_cache (__iter__ s [(1, "a"); (1, "b"); (1, "c")]).2 !! "b")
      as [v|] eqn:Hb; [|done].
    assert ("b" ∈ (__iter__ s [(1, "a"); (1, "b"); (1, "c")]).1) as Hin
      by (apply Hiff; by eexists).
    vm_compute in Hin. by apply elem_of_nil in Hin.
Defined.

(** X14.  Iteration without expiry and without bound.  With no expiry time
    and no [max_paths] the iterator yields every key of the value store
    and changes nothing. *)
Theorem memory_iter_plain s entries :
  snapshot s entries →
  _expiry_time s = None → truthy (_max_paths s) = false →
  __iter__ s entries = (entries.*2, s).
Proof.
  intros [_ Hsnap] He Hmp. unfold __iter__.
  assert (∀ k, k ∈ entries.*2 → is_Some (_cache s !! k)) as Hall
    by (intros k Hk; by apply Hsnap).
  clear Hsnap. induction entries as [|[now k] entries IH]; [done|].
  assert (__contains__ s now k = (true, s)) as Hc.
  { destruct (Hall k) as [v Hv]; [apply elem_of_cons; by left|].
    unfold __contains__, __getitem__, expired. by rewrite He, Hmp, Hv. }
  rewrite generate_cons, Hc. simpl. rewrite IH; [done|].
  intros k' Hk'. apply Hall. rewrite fmap_cons. apply elem_of_cons. by right.
Qed.

Lemma memory_iter_plain_witness :
  let s := run (__init__ None None) (writes 0 [("a", []); ("b", [])]) in
  __iter__ s [(1, "b"); (2, "a")] = (["b"; "a"], s).
Proof.
  intros s. apply memory_iter_plain; [|reflexivity..].
  split.
  - simpl. repeat (apply NoDup_cons; split;
      [intros Hin; repeat (apply elem_of_cons in Hin as [Heq | Hin];
         [discriminate Heq|]); by apply elem_of_nil in Hin|]).
    apply NoDup_nil_2.
  - intros k. split.
    + intros Hin. simpl in Hin.
      repeat (apply elem_of_cons in Hin as [-> | Hin];
        [by eexists|]). by apply elem_of_nil in Hin.
    + intros [v Hv]. simpl. destruct (decide (k = "b")) as [->|Hb];
        [apply elem_of_cons; by left|].
      destruct (decide (k = "a")) as [->|Ha];
        [apply elem_of_cons; right; apply elem_of_cons; by left|].
      exfalso.
      assert (_cache s = <["b" := []]> (<["a" := []]> ∅))
        as Hs by (by vm_compute).
      rewrite Hs in Hv.
      by rewrite !lookup_insert_ne, lookup_empty in Hv by done.
Defined.

(** *** How long a written key stays readable *)













(** *** The capacity bound, the order of the tracker and the value store *)






End memory.

(** ** [DisabledListingsCache] *)
Section disabled.
Import DisabledListingsCache.

(** C8.  The disabled cache: a read always fails with [KeyError], also
    right after a write of the same key; writes, deletions and [clear]
    change nothing, and a deletion does not fail; nothing is contained,
    iteration yields nothing and the length is zero. *)
Theorem disabled_cache_holds_nothing (self : t) (key : string) (value : listing) :
  (__getitem__ self key).1 = Raise KeyError ∧
  (__getitem__ self key).2 = self ∧
  __setitem__ self key value = self ∧
  (__getitem__ (__setitem__ self key value) key).1 = Raise KeyError ∧
  clear self = self ∧
  __delitem__ self key = (Return tt, self) ∧
  __contains__ self key = false ∧
  __iter__ self = [] ∧
  __len__ self = 0%nat.
Proof. by repeat split. Qed.

End disabled.

(** ** [FileListingsCache] *)
Section file.
Import FileListingsCache.

(** C6, as the code has it.  A read of a key that the store does not hold,
    or whose row has expired, does not raise: it returns [None], the
    default of [diskcache.Cache.get]. *)
Theorem file_getitem_returns_None self disk now item :
  _cache self disk !! item = None ∨
  (∃ r, _cache self disk !! item = Some r ∧ diskcache.valid now r = false) →
  __getitem__ self disk now item = Return None.
Proof.
  unfold __getitem__, diskcache.get.
  by intros [-> | (r & -> & ->)].
Qed.

Lemma file_getitem_returns_None_witness :
  __getitem__ {| _expiry_time := Some 60; _directory := ["tmp"] |} ∅ 0 "x"
  = Return None.
Proof. apply file_getitem_returns_None. left. reflexivity. Defined.

(** A cache whose directory holds no store yet is empty. *)
Lemma file_empty_store self disk :
  disk !! _directory self = None →
  __len__ self disk = 0%nat ∧
  ∀ now item, __contains__ self disk now item = false.
Proof.
  intros Hd. unfold __len__, __contains__, _cache, disk_lookup. rewrite Hd.
  simpl. split; [|done]. unfold diskcache.iterkeys. by rewrite map_to_list_empty.
Qed.

End file.

(** ** Reconstruction from [__reduce__] *)
Section reconstruction.

Lemma memory_empty_contains (s : MemoryListingsCache.t) now item :
  MemoryListingsCache._cache s = ∅ →
  (MemoryListingsCache.__contains__ s now item).1 = false.
Proof.
  intros Hempty.
  destruct (MemoryListingsCache.__contains__ s now item).1 eqn:Hc; [|done].
  apply contains_getitem in Hc as [v Hget].
  destruct (MemoryListingsCache.__getitem__ s now item) as [r s'] eqn:Hcall.
  simpl in Hget. subst r. apply getitem_Return in Hcall as (Hv & _).
  by rewrite Hempty in Hv.
Qed.

Lemma file_reconstruct_directory e f f' :
  FileListingsCache.reconstruct e f = Return f' →
  FileListingsCache._expiry_time f' = FileListingsCache._expiry_time f ∧
  FileListingsCache._directory f' =
    FileListingsCache._directory f ++
      ["dircache"; FileListingsCache.str (FileListingsCache._expiry_time f)].
Proof.
  unfold FileListingsCache.reconstruct, FileListingsCache.__init__. simpl.
  destruct (FileListingsCache.importable e); simpl; [|done].
  destruct (FileListingsCache.mkdir_ok e _); [|done].
  by intros [= <-].
Qed.

(** The claim C5 as the document states it fails for the file backend: the
    instance rebuilt from [__reduce__] has another directory than its
    source, and it is not empty when the store of that directory holds
    something, here an entry written through an instance rebuilt earlier. *)
Lemma file_reconstruct_not_same_not_empty :
  let e := FileListingsCache.Env true ["home"; "fsspec"] (λ _, true) in
  let entries := [entry.Build "bucket/key" 10 "file"] in
  ∃ f f' disk,
    FileListingsCache.__init__ e (Some 60) (Some ["tmp"]) = Return f ∧
    FileListingsCache.reconstruct e f = Return f' ∧
    disk = FileListingsCache.__setitem__ f' ∅ 0 "bucket" entries ∧
    FileListingsCache._directory f = ["tmp"; "dircache"; "60"] ∧
    FileListingsCache._directory f' =
      ["tmp"; "dircache"; "60"; "dircache"; "60"] ∧
    FileListingsCache._directory f' ≠ FileListingsCache._directory f ∧
    FileListingsCache.__len__ f disk = 0%nat ∧
    FileListingsCache.__len__ f' disk = 1%nat ∧
    FileListingsCache.__contains__ f' disk 1 "bucket" = true.
Proof.
  intros e entries. eexists _, _, _.
  split; [reflexivity|]. split; [reflexivity|]. split; [reflexivity|].
  split; [by vm_compute|]. split; [by vm_compute|].
  split; [by vm_compute|]. split; [by vm_compute|]. split; by vm_compute.
Qed.

(** C5, as the code has it.  What [__reduce__] returns is configuration
    only.  For the disabled and the memory backend the rebuilt instance has
    the configuration of its source (expiry time, [max_paths]) and is
    empty, whatever the source holds.  For the file backend the rebuilt
    instance has the expiry time of its source, and it holds what the store
    on disk at its directory holds: nothing when there is no store there
    yet. *)
Theorem reconstruct_carries_configuration_only :
  (∀ d : DisabledListingsCache.t,
     let d' := DisabledListingsCache.reconstruct d in
     DisabledListingsCache.__len__ d' = 0%nat ∧
     ∀ item, DisabledListingsCache.__contains__ d' item = false) ∧
  (∀ m : MemoryListingsCache.t,
     let m' := MemoryListingsCache.reconstruct m in
     MemoryListingsCache._expiry_time m' = MemoryListingsCache._expiry_time m ∧
     MemoryListingsCache._max_paths m' = MemoryListingsCache._max_paths m ∧
     MemoryListingsCache.__len__ m' = 0%nat ∧
     ∀ now item, (MemoryListingsCache.__contains__ m' now item).1 = false) ∧
  (∀ e (f f' : FileListingsCache.t),
     FileListingsCache.reconstruct e f = Return f' →
     FileListingsCache._expiry_time f' = FileListingsCache._expiry_time f ∧
     ∀ disk, disk !! FileListingsCache._directory f' = None →
       FileListingsCache.__len__ f' disk = 0%nat ∧
       ∀ now item, FileListingsCache.__contains__ f' disk now item = false).
Proof.
  split; [done|]. split.
  - intros m m'. split; [done|]. split; [done|]. split; [done|].
    intros now item. by apply memory_empty_contains.
  - intros e f f' Hrec. apply file_reconstruct_directory in Hrec as [He _].
    split; [done|]. intros disk Hdisk. by apply file_empty_store.
Qed.

Lemma reconstruct_carries_configuration_only_witness :
  let e := FileListingsCache.Env true ["home"; "fsspec"] (λ _, true) in
  let f := FileListingsCache.Build (Some 60) ["tmp"; "dircache"; "60"] in
  let f' := FileListingsCache.Build (Some 60)
              ["tmp"; "dircache"; "60"; "dircache"; "60"] in
  let disk := FileListingsCache.__setitem__ f ∅ 0 "bucket" [] in
  FileListingsCache.reconstruct e f = Return f' ∧
  FileListingsCache.__len__ f' disk = 0%nat.
Proof.
  intros e f f' disk.
  assert (FileListingsCache.reconstruct e f = Return f') as Hrec
    by (by vm_compute).
  split; [exact Hrec|].
  destruct reconstruct_carries_configuration_only as (_ & _ & H).
  destruct (H e f f' Hrec) as [_ Hempty].
  apply (Hempty disk). by vm_compute.
Defined.

End reconstruction.

(** ** [FileListingsCache], continued *)
Section file_store.
Import FileListingsCache.

(** *** Writes, reads and directories *)

Lemma disk_lookup_insert disk d c d' :
  disk_lookup (<[d := c]> disk) d'
  = if decide (d = d') then c else disk_lookup disk d'.
Proof.
  unfold disk_lookup. rewrite lookup_insert. by destruct (decide (d = d')).
Qed.

Lemma cache_after_setitem self disk now key value :
  _cache self (__setitem__ self disk now key value)
  = diskcache.set (_cache self disk) now key value (_expiry_time self).
Proof.
  unfold __setitem__. unfold _cache at 1. rewrite disk_lookup_insert.
  by rewrite decide_True.
Qed.

Lemma iterkeys_after_setitem self disk now key value :
  key ∈ diskcache.iterkeys (_cache self (__setitem__ self disk now key value)) ∧
  (0 < __len__ self (__setitem__ self disk now key value))%nat.
Proof.
  assert (key ∈ diskcache.iterkeys
                  (_cache self (__setitem__ self disk now key value))) as Hin.
  { rewrite cache_after_setitem. unfold diskcache.iterkeys, diskcache.set.
    apply list_elem_of_fmap. eexists (key, _). split; [done|].
    apply elem_of_map_to_list. apply lookup_insert_eq. }
  split; [done|]. unfold __len__.
  destruct (diskcache.iterkeys _); [|simpl; lia]. by apply elem_of_nil in Hin.
Qed.

Lemma file_setitem_read self disk now key value t :
  __getitem__ self (__setitem__ self disk now key value) t key
  = Return match _expiry_time self with
           | None => Some value
           | Some T => if t <? now + T then Some value else None
           end.
Proof.
  unfold __getitem__. rewrite cache_after_setitem.
  unfold diskcache.get, diskcache.set. rewrite lookup_insert_eq.
  unfold diskcache.valid. simpl. by destruct (_expiry_time self).
Qed.

Lemma file_setitem_frame self disk now key value other t key' :
  _directory other ≠ _directory self ∨ key' ≠ key →
  __getitem__ other (__setitem__ self disk now key value) t key'
  = __getitem__ other disk t key'.
Proof.
  intros Hother. unfold __getitem__, __setitem__.
  f_equal. unfold _cache at 1. rewrite disk_lookup_insert.
  destruct (decide (_directory self = _directory other)) as [Heq | Hne];
    [|done].
  destruct Hother as [Hdir | Hkey]; [by destruct Hdir|].
  unfold diskcache.get, diskcache.set. rewrite lookup_insert_ne by done.
  unfold _cache. by rewrite Heq.
Qed.

(** X15.  Write, then read, on disk.  After [set(key, value)] at [now] a read
    of [key] returns [value] for good when no expiry time is set, and with
    an expiry time [T] it returns [value] before [now + T] and [None] from
    [now + T] on.  The write shows in no other key and in no cache on
    another directory. *)
Theorem file_write_then_read self disk now key value t :
  let disk' := __setitem__ self disk now key value in
  __getitem__ self disk' t key
  = Return match _expiry_time self with
           | None => Some value
           | Some T => if t <? now + T then Some value else None
           end ∧
  (∀ other key',
     _directory other ≠ _directory self ∨ key' ≠ key →
     __getitem__ other disk' t key' = __getitem__ other disk t key').
Proof.
  intros disk'. split; [apply file_setitem_read|].
  intros other key' Hother. by apply file_setitem_frame.
Qed.

Lemma file_write_then_read_witness :
  let self := {| _expiry_time := Some 60; _directory := ["tmp"] |} in
  let other := {| _expiry_time := Some 60; _directory := ["var"] |} in
  let disk' := __setitem__ self ∅ 100 "bucket" [entry.Build "bucket/k" 1 "file"] in
  __getitem__ other disk' 101 "bucket" = __getitem__ other ∅ 101 "bucket".
Proof.
  intros self other disk'.
  destruct (file_write_then_read self ∅ 100 "bucket"
              [entry.Build "bucket/k" 1 "file"] 101) as [_ Hframe].
  apply Hframe. left. discriminate.
Defined.

(** X16.  An empty listing is stored but not contained.  With an expiry
    time that is not negative, or none: after the listing of an empty
    directory is written, a read before expiry returns it, yet the
    membership test is false at every time, the iterator never yields the
    key, and the length counts it. *)
Theorem file_empty_listing self disk now key :
  (∀ T, _expiry_time self = Some T → 0 ≤ T) →
  let disk' := __setitem__ self disk now key [] in
  (∀ t, (∀ T, _expiry_time self = Some T → t < now + T) →
        __getitem__ self disk' t key = Return (Some [])) ∧
  (∀ t, __contains__ self disk' t key = false) ∧
  (∀ t, key ∉ __iter__ self disk' t) ∧
  (0 < __len__ self disk')%nat.
Proof.
  intros _ disk'.
  assert (∀ t, __contains__ self disk' t key = false) as Hc.
  { intros t. unfold __contains__, disk'. rewrite cache_after_setitem.
    unfold diskcache.get, diskcache.set. rewrite lookup_insert_eq. simpl.
    by destruct (diskcache.valid _ _). }
  split; [|split; [done|split]].
  - intros t Ht. unfold disk'.
    rewrite file_setitem_read.
    destruct (_expiry_time self) as [T|]; [|done].
    specialize (Ht T eq_refl). by rewrite (proj2 (Z.ltb_lt _ _) Ht).
  - intros t. unfold __iter__. rewrite list_elem_of_filter.
    intros [Hin _]. by rewrite Hc in Hin.
  - apply iterkeys_after_setitem.
Qed.

Lemma file_empty_listing_witness :
  let self := {| _expiry_time := Some 60; _directory := ["tmp"] |} in
  __getitem__ self (__setitem__ self ∅ 100 "bucket/empty" []) 159
    "bucket/empty" = Return (Some []).
Proof.
  intros self.
  destruct (file_empty_listing self ∅ 100 "bucket/empty") as [Hget _].
  - intros T HT. injection HT as <-. lia.
  - apply Hget. intros T HT. injection HT as <-. lia.
Defined.

(** X17.  The length counts expired rows.  With an expiry time [T] that
    is not negative, from [now + T] on a key written at [now] is neither
    read nor contained nor yielded, and the length still counts it. *)
Theorem file_len_counts_expired self disk now key value T t :
  _expiry_time self = Some T → 0 ≤ T → now + T ≤ t →
  let disk' := __setitem__ self disk now key value in
  __getitem__ self disk' t key = Return None ∧
  __contains__ self disk' t key = false ∧
  (key ∉ __iter__ self disk' t) ∧
  (key ∈ diskcache.iterkeys (_cache self disk')) ∧
  (0 < __len__ self disk')%nat.
Proof.
  intros He _ Hlate disk'.
  assert (diskcache.get (_cache self disk') t key = None) as Hget.
  { unfold disk'. rewrite cache_after_setitem.
    unfold diskcache.get, diskcache.set. rewrite lookup_insert_eq.
    unfold diskcache.valid. rewrite He. simpl.
    by rewrite (proj2 (Z.ltb_ge _ _) Hlate). }
  assert (__contains__ self disk' t key = false) as Hc
    by (unfold __contains__; by rewrite Hget).
  destruct (iterkeys_after_setitem self disk now key value) as [Hin Hlen].
  fold disk' in Hin, Hlen.
  split; [unfold __getitem__; by rewrite Hget|]. split; [done|].
  split; [|split; [done|done]].
  unfold __iter__. rewrite list_elem_of_filter. intros [Hy _].
  by rewrite Hc in Hy.
Qed.

Lemma file_len_counts_expired_witness :
  let self := {| _expiry_time := Some 60; _directory := ["tmp"] |} in
  let disk' := __setitem__ self ∅ 100 "bucket" [entry.Build "bucket/k" 1 "file"] in
  __getitem__ self disk' 160 "bucket" = Return None ∧
  (0 < __len__ self disk')%nat.
Proof.
  intros self disk'.
  destruct (file_len_counts_expired self ∅ 100 "bucket"
              [entry.Build "bucket/k" 1 "file"] 60 160)
    as (Hget & _ & _ & _ & Hlen); [reflexivity | lia | lia |].
  by split.
Defined.

(** X18.  [clear] on disk.  After [clear] the cache holds nothing: the
    length is zero, no key is contained and every read returns [None];
    the stores of other directories are as they were. *)
Theorem file_clear self disk :
  let disk' := clear self disk in
  __len__ self disk' = 0%nat ∧
  (∀ now key, __contains__ self disk' now key = false ∧
              __getitem__ self disk' now key = Return None) ∧
  (∀ other, _directory other ≠ _directory self →
            _cache other disk' = _cache other disk).
Proof.
  intros disk'.
  assert (_cache self disk' = ∅) as Hc.
  { unfold disk', clear. unfold _cache at 1. rewrite disk_lookup_insert.
    by rewrite decide_True. }
  split; [|split].
  - unfold __len__. rewrite Hc. unfold diskcache.iterkeys.
    by rewrite map_to_list_empty.
  - intros now key. unfold __contains__, __getitem__. rewrite Hc.
    unfold diskcache.get. by rewrite lookup_empty.
  - intros other Hne. unfold disk', clear. unfold _cache at 1.
    rewrite disk_lookup_insert. by rewrite decide_False.
Qed.

Lemma file_clear_witness :
  let self := {| _expiry_time := Some 60; _directory := ["tmp"] |} in
  let other := {| _expiry_time := None; _directory := ["var"] |} in
  let disk := __setitem__ other ∅ 0 "bucket" [entry.Build "bucket/k" 1 "file"] in
  _cache other (clear self disk) = _cache other disk.
Proof.
  intros self other disk.
  destruct (file_clear self disk) as (_ & _ & Hframe).
  apply Hframe. discriminate.
Defined.

(** X19.  Deletion on disk.  Deleting a key whose row is missing or has
    expired raises [KeyError] and leaves the store as it is; deleting a
    key whose row is valid succeeds, and a read of the key then returns
    [None] while the other keys read as before. *)
Theorem file_delete self disk now key :
  let r := __delitem__ self disk now key in
  match diskcache.get (_cache self disk) now key with
  | None => r.1 = Raise KeyError ∧ _cache self r.2 = _cache self disk
  | Some _ =>
      r.1 = Return tt ∧
      (∀ t, __getitem__ self r.2 t key = Return None) ∧
      (∀ t key', key' ≠ key →
         __getitem__ self r.2 t key' = __getitem__ self disk t key')
  end.
Proof.
  intros r. unfold r, __delitem__, diskcache.__delitem__, diskcache.get.
  destruct (_cache self disk !! key) as [row|] eqn:Hrow;
    [destruct (diskcache.valid now row)|]; simpl.
  - split; [done|]. unfold __getitem__, _cache at 1 3.
    rewrite !disk_lookup_insert, !decide_True by done.
    unfold diskcache.get. split.
    + intros t. by rewrite lookup_delete_eq.
    + intros t key' Hne. by rewrite lookup_delete_ne.
  - split; [done|]. unfold _cache at 1. rewrite disk_lookup_insert.
    by rewrite decide_True.
  - split; [done|]. unfold _cache at 1. rewrite disk_lookup_insert.
    by rewrite decide_True.
Qed.

Lemma file_delete_witness :
  let self := {| _expiry_time := None; _directory := ["tmp"] |} in
  let disk := __setitem__ self ∅ 0 "bucket" [entry.Build "bucket/k" 1 "file"] in
  __getitem__ self (__delitem__ self disk 1 "bucket").2 2 "other"
  = __getitem__ self disk 2 "other".
Proof.
  intros self disk. pose proof (file_delete self disk 1 "bucket") as Hdel.
  cbv zeta in Hdel.
  change (diskcache.get (_cache self disk) 1 "bucket")
    with (Some [entry.Build "bucket/k" 1 "file"]) in Hdel.
  destruct Hdel as (_ & _ & Hother). apply Hother. discriminate.
Defined.

(** *** Directories *)

Lemma pretty_N_go_ne_None x s : s ≠ "None" → pretty_N_go x s ≠ "None".
Proof.
  revert s. induction (N.lt_wf_0 x) as [x _ IH]; intros s Hs.
  assert (x = 0 ∨ 0 < x)%N as [->|Hx] by lia.
  - by rewrite pretty_N_go_0.
  - rewrite pretty_N_go_step by done. apply IH.
    { by apply N.div_lt. }
    unfold pretty_N_char. by repeat case_match.
Qed.

Lemma pretty_Z_ne_None (n : Z) : pretty n ≠ "None".
Proof.
  destruct n as [|p|p]; [done| |done].
  unfold pretty, pretty_Z, pretty, pretty_positive, pretty, pretty_N.
  rewrite decide_False by done. by apply pretty_N_go_ne_None.
Qed.

Lemma str_inj T1 T2 : str T1 = str T2 → T1 = T2.
Proof.
  destruct T1 as [n1|], T2 as [n2|]; simpl; intros Heq.
  - f_equal. by apply (inj pretty).
  - by apply pretty_Z_ne_None in Heq.
  - symmetry in Heq. by apply pretty_Z_ne_None in Heq.
  - done.
Qed.

(** X20.  One store per expiry time.  Two caches built on the same root
    directory with different expiry times are on different directories,
    and what is written through one does not show in the other. *)
Theorem file_expiry_separates_stores e d T1 T2 f1 f2 :
  T1 ≠ T2 →
  __init__ e T1 d = Return f1 → __init__ e T2 d = Return f2 →
  _directory f1 ≠ _directory f2 ∧
  ∀ disk now key value t key',
    __getitem__ f2 (__setitem__ f1 disk now key value) t key'
    = __getitem__ f2 disk t key'.
Proof.
  intros HT Hf1 Hf2. unfold __init__ in Hf1, Hf2.
  destruct (importable e); simpl in *; [|done].
  do 2 (destruct (mkdir_ok e _); [|done]).
  injection Hf1 as <-. injection Hf2 as <-. simpl.
  assert (∀ base : list string,
            base ++ ["dircache"; str T1] ≠ base ++ ["dircache"; str T2]) as Hd.
  { intros base Heq%app_inv_head. injection Heq as Heq.
    by apply str_inj in Heq. }
  split; [apply Hd|].
  intros disk now key value t key'.
  apply file_setitem_frame. left. simpl. intros Heq. by eapply Hd.
Qed.

Lemma file_expiry_separates_stores_witness :
  let e := Env true ["home"; "fsspec"] (λ _, true) in
  let f1 := Build None ["home"; "fsspec"; "dircache"; "None"] in
  let f2 := Build (Some 60) ["home"; "fsspec"; "dircache"; "60"] in
  __getitem__ f2 (__setitem__ f1 ∅ 0 "bucket" [entry.Build "bucket/k" 1 "file"])
    1 "bucket" = __getitem__ f2 ∅ 1 "bucket".
Proof.
  intros e f1 f2.
  destruct (file_expiry_separates_stores e None None (Some 60) f1 f2)
    as [_ Hsep]; [discriminate | reflexivity | reflexivity |].
  apply Hsep.
Defined.

(** X21.  A rebuilt file cache is on another directory.  The instance built
    from [__reduce__] is on the directory of its source extended by
    [dircache/str(expiry_time)] once more, so what is written through the
    source does not show in it. *)
Theorem file_reconstruct_nests e f f' :
  reconstruct e f = Return f' →
  _directory f' = _directory f ++ ["dircache"; str (_expiry_time f)] ∧
  _directory f' ≠ _directory f ∧
  ∀ disk now key value t key',
    __getitem__ f' (__setitem__ f disk now key value) t key'
    = __getitem__ f' disk t key'.
Proof.
  intros Hrec. apply file_reconstruct_directory in Hrec as [_ Hd].
  assert (_directory f' ≠ _directory f) as Hne.
  { rewrite Hd. intros Heq%(f_equal length). rewrite length_app in Heq.
    simpl in Heq. lia. }
  split; [done|]. split; [done|].
  intros disk now key value t key'.
  apply file_setitem_frame. by left.
Qed.

Lemma file_reconstruct_nests_witness :
  let e := Env true ["home"; "fsspec"] (λ _, true) in
  let f := Build (Some 60) ["tmp"; "dircache"; "60"] in
  let f' := Build (Some 60) ["tmp"; "dircache"; "60"; "dircache"; "60"] in
  _directory f' ≠ _directory f.
Proof.
  intros e f f'.
  destruct (file_reconstruct_nests e f f') as (_ & Hne & _); [reflexivity|].
  exact Hne.
Defined.

End file_store.

(** ** [create_listings_cache] *)
Section factory.





(** X22.  The factory returns the class that was asked for.  Whatever the
    expiry time, the options and the environment, an instance that the
    factory returns for a member of [CacheType] is of the class of that
    member. *)
Theorem create_listings_cache_class e c expiry_time kwargs i :
  create_listings_cache e (Member c) expiry_time kwargs = Return i →
  class_of i = c.
Proof.
  unfold create_listings_cache, cache_map.
  destruct c; simpl.
  - unfold call_Disabled. by intros [= <-].
  - unfold call_Memory. intros Hret. repeat case_match; by simplify_eq.
  - unfold call_File. intros Hret. repeat case_match; by simplify_eq.
Qed.

Lemma create_listings_cache_class_witness :
  class_of (Memory (MemoryListingsCache.__init__ (Some 60) (Some 5))) = MEMORY.
Proof.
  apply (create_listings_cache_class
           (FileListingsCache.Env false [] (λ _, false)) MEMORY (Some 60)
           {["max_paths" := KwInt 5]}).
  reflexivity.
Defined.



End factory.
